(** * Static name resolution of golox: a shallow embedding of
    [golox/interpreter/resolver.go] and of the error list of
    [golox/loxerror/loxerror.go], with the properties of the resolver's
    scope stack, distance computation and diagnostics. *)

From Stdlib Require Import ZArith Lia.
From stdpp Require Import gmap strings list fin_maps sorting.

(** ** Panics

    Go code that indexes out of range, pops an empty stack or dereferences the
    nil pointer a missing map key yields, panics.  Such code returns a
    [result]. *)

Inductive result (A : Type) : Type :=
  | Ok (a : A)
  | Panic (msg : string).
Arguments Ok {A} a.
Arguments Panic {A} msg.

Definition bind {A B : Type} (m : result A) (k : A → result B) : result B :=
  match m with
  | Ok a => k a
  | Panic msg => Panic msg
  end.

Notation "x <- m ;; k" := (bind m (λ x, k))
  (at level 100, m at next level, right associativity,
   format "'[v' x  <-  m ;;  '/' k ']'").

(** ** Package token *)

Module token.

(** Modelled from the spec: package [token] is not among the sources.  A
    position is used by [loxerror.go] through its fields [File], [Line] and
    [Column]; a token "carries its lexeme text and a source range
    (start/end position)".  [File] is a pointer; it is an address here. *)
Record Position : Type := mkPosition {
  File : nat;
  Line : Z;
  Column : Z;
}.

Record Token : Type := mkToken {
  Start : Position;
  End_ : Position;
  Lexeme : string;
}.

(** Modelled from the spec: the "distinguished lexeme value" of the "blank
    identifier"; the resolver's own message spells it [_]. *)
Definition BlankIdent : string := "_".

Definition cmpCompare (x y : Z) : Z :=
  if (x <? y)%Z then (-1)%Z else if (y <? x)%Z then 1%Z else 0%Z.

(** Modelled from the spec: [Position.Compare] orders diagnostics "by
    source position": by line, then by column. *)
Definition Compare (p other : Position) : Z :=
  if (Line p =? Line other)%Z
  then cmpCompare (Column p) (Column other)
  else cmpCompare (Line p) (Line other).

Global Instance Position_eq_dec : EqDecision Position.
Proof. solve_decision. Defined.

Global Instance Token_eq_dec : EqDecision Token.
Proof. solve_decision. Defined.

Global Instance Position_countable : Countable Position.
Proof.
  refine (inj_countable' (λ p, (File p, Line p, Column p))
            (λ t, mkPosition t.1.1 t.1.2 t.2) _).
  by intros [].
Defined.

Global Instance Token_countable : Countable Token.
Proof.
  refine (inj_countable' (λ t, (Start t, End_ t, Lexeme t))
            (λ t, mkToken t.1.1 t.1.2 t.2) _).
  by intros [].
Defined.

End token.

(** ** Package loxerror *)

Module loxerror.

Record LoxError : Type := mkLoxError {
  msg : string;
  start : token.Position;
  end_ : token.Position;
}.

Global Instance LoxError_eq_dec : EqDecision LoxError.
Proof. solve_decision. Defined.

(** [LoxErrors] is a slice of errors; [Add] appends.  The message is passed
    already formatted. *)
Abbreviation LoxErrors := (list LoxError).

Definition Add (start end_ : token.Position) (msg : string)
    (e : LoxErrors) : LoxErrors :=
  e ++ [mkLoxError msg start end_].

Definition AddFromToken (tok : token.Token) (msg : string)
    (e : LoxErrors) : LoxErrors :=
  Add (token.Start tok) (token.End_ tok) msg e.

(** The order [Err] sorts by: [e1.start.Compare(e2.start)] is not
    positive. *)
Definition before (e1 e2 : LoxError) : Prop :=
  (token.Compare (start e1) (start e2) ≤ 0)%Z.

Global Instance before_dec : RelDecision before.
Proof. intros e1 e2. unfold before. apply _. Defined.

(** [slices.SortFunc] of Go's library sorts by the comparison it is given and
    need not be stable.  A merge sort stands for it; the properties below use
    only that its result is sorted and holds the same errors. *)
Definition SortFunc (e : LoxErrors) : LoxErrors := merge_sort before e.

(** [Err]: nil for the empty list, else the sorted errors joined into one
    error. *)
Definition Err (e : LoxErrors) : option LoxErrors :=
  if decide (length e = 0) then None else Some (SortFunc e).

End loxerror.

Scheme All for list.
Scheme All for option.

(** ** Package ast

    The node shapes the resolver dispatches on, with the fields it reads.  A
    field the resolver tests against nil is an [option], nil being [None]. *)

Module ast.

Inductive Stmt : Type :=
  | VarDecl (Name : token.Token) (Initialiser : option Expr)
  | FunDecl (Name : token.Token) (Params : list token.Token) (Body : list Stmt)
  | ExprStmt (E : Expr)
  | PrintStmt (E : Expr)
  | BlockStmt (Stmts : list Stmt)
  | IfStmt (Condition : Expr) (Then : Stmt) (Else : option Stmt)
  | WhileStmt (Condition : Expr) (Body : Stmt)
  | ForStmt (Initialise : option Stmt) (Condition Update : option Expr)
      (Body : Stmt)
  | BreakStmt
  | ContinueStmt
  | ReturnStmt (Value : option Expr)
with Expr : Type :=
  | FunExpr (Params : list token.Token) (Body : list Stmt)
  | GroupExpr (E : Expr)
  | LiteralExpr
  | VariableExpr (Name : token.Token)
  | CallExpr (Callee : Expr) (Args : list Expr)
  | UnaryExpr (Right : Expr)
  | BinaryExpr (Left Right : Expr)
  | TernaryExpr (Condition Then Else : Expr)
  | AssignmentExpr (Left : token.Token) (Right : Expr).

Record Program : Type := mkProgram { Stmts : list Stmt }.

Scheme Stmt_mut := Induction for Stmt Sort Prop
  with Expr_mut := Induction for Expr Sort Prop.
Combined Scheme Stmt_Expr_ind from Stmt_mut, Expr_mut.

End ast.

(** ** Package interpreter: the resolver *)

Module interpreter.
Import ast.

Record identInfo : Type := mkIdentInfo {
  Defined : bool;
  Used : bool;
  Token : token.Token;
}.

Global Instance identInfo_eq_dec : EqDecision identInfo.
Proof. solve_decision. Defined.

(** [scope] is a Go map from lexemes to pointers to [identInfo].  Each pointer
    is made by [Declare_] and lives in that one map entry only, so the entry
    holds the record itself. *)
Abbreviation scope := (gmap string identInfo).

(** The method [scope.Declare], under the name [Declare_]. *)
Definition Declare_ (tok : token.Token) (s : scope) : scope :=
  if decide (token.Lexeme tok = token.BlankIdent) then s
  else <[token.Lexeme tok := mkIdentInfo false false tok]> s.

(** [s[tok.Lexeme].Defined = true]: a missing key yields the nil pointer. *)
Definition Define (tok : token.Token) (s : scope) : result scope :=
  match s !! token.Lexeme tok with
  | Some info =>
      Ok (<[token.Lexeme tok := mkIdentInfo true (Used info) (Token info)]> s)
  | None => Panic "nil pointer dereference"
  end.

Definition Use (tok : token.Token) (s : scope) : result scope :=
  match s !! token.Lexeme tok with
  | Some info =>
      Ok (<[token.Lexeme tok := mkIdentInfo (Defined info) true (Token info)]> s)
  | None => Panic "nil pointer dereference"
  end.

Definition IsDeclared (tok : token.Token) (s : scope) : bool :=
  match s !! token.Lexeme tok with
  | Some _ => true
  | None => false
  end.

Definition IsDefined (tok : token.Token) (s : scope) : result bool :=
  match s !! token.Lexeme tok with
  | Some info => Ok (Defined info)
  | None => Panic "nil pointer dereference"
  end.

(** [UnusedIdents] ranges over the map, in an order Go leaves unspecified:
    [range s] is the entries of [s] in the order of this iteration. *)
Definition UnusedIdents (range : scope → list (string * identInfo))
    (s : scope) : list token.Token :=
  foldl (λ unused e, if negb (Used e.2) then unused ++ [Token e.2] else unused)
    [] (range s).

(** *** The stack: a slice, innermost scope last *)

Abbreviation stack T := (list T).

Definition newStack {T : Type} : stack T := [].

Definition Push {T : Type} (v : T) (s : stack T) : stack T := s ++ [v].

Definition Len {T : Type} (s : stack T) : nat := length s.

Definition Index {T : Type} (i : nat) (s : stack T) : result T :=
  match s !! i with
  | Some v => Ok v
  | None => Panic "index out of range"
  end.

Definition Pop {T : Type} (s : stack T) : result (T * stack T) :=
  if decide (length s = 0) then Panic "pop from empty stack"
  else v <- Index (length s - 1) s;; Ok (v, take (length s - 1) s).

Definition Peek {T : Type} (s : stack T) : result T :=
  if decide (length s = 0) then Panic "peek of empty stack"
  else Index (length s - 1) s.

(** *** The resolver's state *)

Record resolver : Type := mkResolver {
  scopes : stack scope;
  declDistancesByTok : gmap token.Token nat;
  errs : loxerror.LoxErrors;
}.

Definition newResolver : resolver := mkResolver newStack ∅ [].

Definition setScopes (st : stack scope) (r : resolver) : resolver :=
  mkResolver st (declDistancesByTok r) (errs r).

(** A scope taken from the stack is the map itself, not a copy: what a method
    does to it is seen at its index of the stack. *)
Definition storeScope (i : nat) (s : scope) (r : resolver) : resolver :=
  setScopes (<[i := s]> (scopes r)) r.

Definition addErr (tok : token.Token) (msg : string) (r : resolver)
    : resolver :=
  mkResolver (scopes r) (declDistancesByTok r)
    (loxerror.AddFromToken tok msg (errs r)).

Definition setDistance (tok : token.Token) (d : nat) (r : resolver)
    : resolver :=
  mkResolver (scopes r) (<[tok := d]> (declDistancesByTok r)) (errs r).

Definition beginScope (r : resolver) : resolver :=
  setScopes (Push ∅ (scopes r)) r.

(** Go leaves the order of a [range] over a map unspecified.  A [rangeOrder]
    is the order of one run: [entriesOf ro r s] lists the entries of the scope
    [s] as the [range] in [UnusedIdents] visits them when the resolver is in
    state [r]; it may depend on all of the run so far, and visits every entry
    once. *)
Record rangeOrder : Type := mkRangeOrder {
  entriesOf : resolver → scope → list (string * identInfo);
  entriesOf_perm : ∀ r s, entriesOf r s ≡ₚ map_to_list s;
}.

(** The order of the keys' codes, one [rangeOrder] among all. *)
Definition codeOrder : rangeOrder :=
  mkRangeOrder (λ _ s, map_to_list s) (λ _ _, reflexivity _).

(** The function [beginScope] returns. *)
Definition endScope (ro : rangeOrder) (r : resolver) : result resolver :=
  p <- Pop (scopes r);;
  Ok (foldl
        (λ r' tok,
           addErr tok (token.Lexeme tok +:+ " has been declared but is never used") r')
        (setScopes p.2 r) (UnusedIdents (entriesOf ro r) p.1)).

Definition declareIdent (tok : token.Token) (r : resolver) : result resolver :=
  if decide (Len (scopes r) = 0) then Ok r
  else
    s <- Peek (scopes r);;
    if IsDeclared tok s
    then Ok (addErr tok (token.Lexeme tok +:+ " has already been declared") r)
    else Ok (storeScope (Len (scopes r) - 1) (Declare_ tok s) r).

(** The loop [for i := Len()-1; i >= 0; i--]: [n] is [i+1]. *)
Fixpoint defineIdent_from (n : nat) (tok : token.Token) (r : resolver)
    : result resolver :=
  match n with
  | 0 => Ok r
  | S i =>
      s <- Index i (scopes r);;
      if IsDeclared tok s
      then s' <- Define tok s;; Ok (storeScope i s' r)
      else defineIdent_from i tok r
  end.

Definition defineIdent (tok : token.Token) (r : resolver) : result resolver :=
  defineIdent_from (Len (scopes r)) tok r.

Inductive identOp : Type := read | write.

Global Instance identOp_eq_dec : EqDecision identOp.
Proof. solve_decision. Defined.

Fixpoint resolveIdent_from (n : nat) (tok : token.Token) (op : identOp)
    (r : resolver) : result resolver :=
  match n with
  | 0 => Ok r
  | S i =>
      s <- Index i (scopes r);;
      if IsDeclared tok s
      then
        s' <- Use tok s;;
        defined <- IsDefined tok s';;
        if negb defined && bool_decide (op = read)
        then Ok (addErr tok (token.Lexeme tok +:+ " has not been defined")
                   (storeScope i s' r))
        else Ok (setDistance tok (Len (scopes r) - 1 - i) (storeScope i s' r))
      else resolveIdent_from i tok op r
  end.

Definition resolveIdent (tok : token.Token) (op : identOp) (r : resolver)
    : result resolver :=
  resolveIdent_from (Len (scopes r)) tok op r.

(** *** The walk

    [resolveStmt] and [resolveExpr] call the per-node functions, which call
    them back on the node's parts; the per-node functions take the two as
    arguments until the knot is tied. *)

Section walk.
Variable ro : rangeOrder.

Section nodes.
Variable resolveStmt : Stmt → resolver → result resolver.
Variable resolveExpr : Expr → resolver → result resolver.

(** [for _, x := range xs { f(x) }] *)
Definition forEach {A : Type} (f : A → resolver → result resolver)
    : list A → resolver → result resolver :=
  fix each (xs : list A) (r : resolver) : result resolver :=
    match xs with
    | [] => Ok r
    | x :: xs' => r' <- f x r;; each xs' r'
    end.

(** [if x != nil { f(x) }] *)
Definition ifNotNil {A : Type} (f : A → resolver → result resolver)
    (x : option A) (r : resolver) : result resolver :=
  match x with
  | Some x' => f x' r
  | None => Ok r
  end.

Definition resolveVarDecl (Name : token.Token) (Initialiser : option Expr)
    (r : resolver) : result resolver :=
  match Initialiser with
  | Some e =>
      r1 <- resolveExpr e r;;
      r2 <- declareIdent Name r1;;
      defineIdent Name r2
  | None => declareIdent Name r
  end.

(** [defer endScope()] runs when the function returns. *)
Definition resolveFun (params : list token.Token) (body : list Stmt)
    (r : resolver) : result resolver :=
  r1 <- forEach (λ param r', r'' <- declareIdent param r';; defineIdent param r'')
          params (beginScope r);;
  r2 <- forEach resolveStmt body r1;;
  endScope ro r2.

Definition resolveFunDecl (Name : token.Token) (Params : list token.Token)
    (Body : list Stmt) (r : resolver) : result resolver :=
  r1 <- declareIdent Name r;;
  r2 <- defineIdent Name r1;;
  resolveFun Params Body r2.

Definition resolveExprStmt (E : Expr) (r : resolver) : result resolver :=
  resolveExpr E r.

Definition resolvePrintStmt (E : Expr) (r : resolver) : result resolver :=
  resolveExpr E r.

Definition resolveBlockStmt (Stmts : list Stmt) (r : resolver)
    : result resolver :=
  r1 <- forEach resolveStmt Stmts (beginScope r);;
  endScope ro r1.

Definition resolveIfStmt (Condition : Expr) (Then : Stmt) (Else : option Stmt)
    (r : resolver) : result resolver :=
  r1 <- resolveExpr Condition r;;
  r2 <- resolveStmt Then r1;;
  ifNotNil resolveStmt Else r2.

Definition resolveWhileStmt (Condition : Expr) (Body : Stmt) (r : resolver)
    : result resolver :=
  r1 <- resolveExpr Condition r;;
  resolveStmt Body r1.

Definition resolveForStmt (Initialise : option Stmt)
    (Condition Update : option Expr) (Body : Stmt) (r : resolver)
    : result resolver :=
  r1 <- ifNotNil resolveStmt Initialise (beginScope r);;
  r2 <- ifNotNil resolveExpr Condition r1;;
  r3 <- ifNotNil resolveExpr Update r2;;
  r4 <- resolveStmt Body r3;;
  endScope ro r4.

Definition resolveBreakStmt (r : resolver) : result resolver := Ok r.

Definition resolveContinueStmt (r : resolver) : result resolver := Ok r.

Definition resolveReturnStmt (Value : option Expr) (r : resolver)
    : result resolver :=
  ifNotNil resolveExpr Value r.

Definition resolveFunExpr (Params : list token.Token) (Body : list Stmt)
    (r : resolver) : result resolver :=
  resolveFun Params Body r.

Definition resolveGroupExpr (E : Expr) (r : resolver) : result resolver :=
  resolveExpr E r.

Definition resolveLiteralExpr (r : resolver) : result resolver := Ok r.

Definition resolveVariableExpr (Name : token.Token) (r : resolver)
    : result resolver :=
  if decide (token.Lexeme Name = token.BlankIdent)
  then Ok (addErr Name
             "blank identifier _ cannot be used in a non-assignment expression" r)
  else resolveIdent Name read r.

Definition resolveBinaryExpr (Left Right : Expr) (r : resolver)
    : result resolver :=
  r1 <- resolveExpr Left r;;
  resolveExpr Right r1.

Definition resolveTernaryExpr (Condition Then Else : Expr) (r : resolver)
    : result resolver :=
  r1 <- resolveExpr Condition r;;
  r2 <- resolveExpr Then r1;;
  resolveExpr Else r2.

Definition resolveCallExpr (Callee : Expr) (Args : list Expr) (r : resolver)
    : result resolver :=
  r1 <- resolveExpr Callee r;;
  forEach resolveExpr Args r1.

Definition resolveUnaryExpr (Right : Expr) (r : resolver) : result resolver :=
  resolveExpr Right r.

Definition resolveAssignmentExpr (Left : token.Token) (Right : Expr)
    (r : resolver) : result resolver :=
  r1 <- resolveExpr Right r;;
  r2 <- resolveIdent Left write r1;;
  defineIdent Left r2.

End nodes.

(** The type switches.  [Stmt] and [Expr] are closed, so the [default]
    branches, which panic on an unknown node type, have no case here. *)
Fixpoint resolveStmt (stmt : Stmt) : resolver → result resolver :=
  match stmt with
  | VarDecl n i => resolveVarDecl resolveExpr n i
  | FunDecl n ps b => resolveFunDecl resolveStmt n ps b
  | ExprStmt e => resolveExprStmt resolveExpr e
  | PrintStmt e => resolvePrintStmt resolveExpr e
  | BlockStmt ss => resolveBlockStmt resolveStmt ss
  | IfStmt c t e => resolveIfStmt resolveStmt resolveExpr c t e
  | WhileStmt c b => resolveWhileStmt resolveStmt resolveExpr c b
  | ForStmt i c u b => resolveForStmt resolveStmt resolveExpr i c u b
  | BreakStmt => resolveBreakStmt
  | ContinueStmt => resolveContinueStmt
  | ReturnStmt v => resolveReturnStmt resolveExpr v
  end
with resolveExpr (expr : Expr) : resolver → result resolver :=
  match expr with
  | FunExpr ps b => resolveFunExpr resolveStmt ps b
  | GroupExpr e => resolveGroupExpr resolveExpr e
  | LiteralExpr => resolveLiteralExpr
  | VariableExpr n => resolveVariableExpr n
  | CallExpr c args => resolveCallExpr resolveExpr c args
  | UnaryExpr e => resolveUnaryExpr resolveExpr e
  | BinaryExpr l r => resolveBinaryExpr resolveExpr l r
  | TernaryExpr c t e => resolveTernaryExpr resolveExpr c t e
  | AssignmentExpr l r => resolveAssignmentExpr resolveExpr l r
  end.

Definition resolveProgram (program : Program) (r : resolver)
    : result resolver :=
  forEach resolveStmt (Stmts program) r.

(** [Resolve] returns the pair (map, error); nil is [None]. *)
Definition Resolve (program : Program) (r : resolver)
    : result (option (gmap token.Token nat) * option loxerror.LoxErrors) :=
  r' <- resolveProgram program r;;
  match loxerror.Err (errs r') with
  | Some err => Ok (None, Some err)
  | None => Ok (Some (declDistancesByTok r'), None)
  end.

Definition resolve (program : Program)
    : result (option (gmap token.Token nat) * option loxerror.LoxErrors) :=
  Resolve program newResolver.

End walk.

End interpreter.

(** ** Vocabulary of the properties *)

Import ast interpreter.

(** The error [AddFromToken] appends for [tok] with message [msg]. *)
Definition diag (tok : token.Token) (msg : string) : loxerror.LoxError :=
  loxerror.mkLoxError msg (token.Start tok) (token.End_ tok).

Definition unusedDiag (tok : token.Token) : loxerror.LoxError :=
  diag tok (token.Lexeme tok +:+ " has been declared but is never used").

Definition redeclaredDiag (tok : token.Token) : loxerror.LoxError :=
  diag tok (token.Lexeme tok +:+ " has already been declared").

Definition undefinedDiag (tok : token.Token) : loxerror.LoxError :=
  diag tok (token.Lexeme tok +:+ " has not been defined").

Definition blankDiag (tok : token.Token) : loxerror.LoxError :=
  diag tok "blank identifier _ cannot be used in a non-assignment expression".

(** What each scope of the stack holds for one lexeme, outermost first. *)
Definition lookups (lex : string) (st : stack scope)
    : list (option identInfo) :=
  (λ s : scope, s !! lex) <$> st.

(** No scope of the stack declares [lex]. *)
Definition undeclared (lex : string) (st : stack scope) : Prop :=
  ∀ k s, st !! k = Some s → s !! lex = None.

(** Scope [i] is the innermost scope of the stack that declares [lex], and
    holds [info] for it. *)
Definition innermost (lex : string) (st : stack scope) (i : nat)
    (info : identInfo) : Prop :=
  lookups lex st !! i = Some (Some info) ∧
  ∀ k o, i < k → lookups lex st !! k = Some o → o = None.

(** No scope of the stack has the blank identifier as a key. *)
Definition noBlank (st : stack scope) : Prop :=
  undeclared token.BlankIdent st.

(** The binding records [Define] and [Use] leave behind. *)
Definition defined (info : identInfo) : identInfo :=
  mkIdentInfo true (Used info) (Token info).

Definition used (info : identInfo) : identInfo :=
  mkIdentInfo (Defined info) true (Token info).

(** The tokens of the unused bindings of a scope, in the order of the keys'
    codes. *)
Definition unusedOf (s : scope) : list token.Token :=
  Token <$> filter (λ info, Used info = false) ((map_to_list s).*2).

(** The state [resolveIdent] leaves when scope [i], holding [s], is the
    innermost one to declare the lexeme, with the record [info]. *)
Definition resolvedAt (tok : token.Token) (op : identOp) (i : nat) (s : scope)
    (info : identInfo) (r : resolver) : resolver :=
  let st := <[i := <[token.Lexeme tok := used info]> s]> (scopes r) in
  if negb (Defined info) && bool_decide (op = read)
  then mkResolver st (declDistancesByTok r) (errs r ++ [undefinedDiag tok])
  else mkResolver st
         (<[tok := length (scopes r) - 1 - i]> (declDistancesByTok r)) (errs r).

(** Two runs agree: the same stack of scopes, the same distances, the same
    diagnostics up to their order. *)
Definition agree (r1 r2 : resolver) : Prop :=
  scopes r1 = scopes r2 ∧
  declDistancesByTok r1 = declDistancesByTok r2 ∧
  errs r1 ≡ₚ errs r2.

(** [f1] and [f2] never panic, take agreeing states to agreeing states, and
    leave the stack as deep as they found it and free of the blank
    identifier if it was. *)
Definition simulates (f1 f2 : resolver → result resolver) : Prop :=
  ∀ r1 r2, agree r1 r2 →
    ∃ r1' r2', f1 r1 = Ok r1' ∧ f2 r2 = Ok r2' ∧ agree r1' r2' ∧
      length (scopes r1') = length (scopes r1) ∧
      (noBlank (scopes r1) → noBlank (scopes r1')).

(** [p] never panics, reads the scopes and the distances only, and appends
    its diagnostics. *)
Definition stepOk (p : resolver → result resolver) : Prop :=
  ∀ st dd, ∃ st' dd' es,
    length st' = length st ∧ (noBlank st → noBlank st') ∧
    ∀ e, p (mkResolver st dd e) = Ok (mkResolver st' dd' (e ++ es)).

(** *** Sample tokens, states and programs *)

(** The identifier [lex] at line [line], column [col] of file 0. *)
Definition tokenAt (line col : Z) (lex : string) : token.Token :=
  token.mkToken (token.mkPosition 0 line col)
    (token.mkPosition 0 line (col + Z.of_nat (String.length lex))) lex.

(** A resolver inside one block that has declared and defined [x] at 1:6. *)
Definition inBlockWithX : resolver :=
  mkResolver [{[ "x" := mkIdentInfo true false (tokenAt 1 6 "x") ]}] ∅ [].

(** The statements [{ var d1 = 0; { var d2 = 0; ... { var dn = 0; print rd; } } }]
    for [inner = [d1; ...; dn]], and [print rd;] alone for no [inner]. *)
Fixpoint chainBody (inner : list token.Token) (rd : token.Token)
    : list Stmt :=
  match inner with
  | [] => [PrintStmt (VariableExpr rd)]
  | d :: inner' =>
      [BlockStmt (VarDecl d (Some LiteralExpr) :: chainBody inner' rd)]
  end.

(** A chain of [1 + length inner] nested blocks, each declaring one variable
    with an initialiser: [outer] in the outermost block, then those of
    [inner]; the innermost block reads [rd]. *)
Definition chain (outer : token.Token) (inner : list token.Token)
    (rd : token.Token) : Stmt :=
  BlockStmt (VarDecl outer (Some LiteralExpr) :: chainBody inner rd).

(** *** Vocabulary of the further properties *)

(** A binding record keeps its token and only gains flags. *)
Definition bindingLe (a b : identInfo) : Prop :=
  Token a = Token b ∧
  (Defined a = true → Defined b = true) ∧
  (Used a = true → Used b = true).

(** Every binding of [s] is still in [s'], with its token and at least its
    flags. *)
Definition scopeLe (s s' : scope) : Prop :=
  ∀ lex a, s !! lex = Some a → ∃ b, s' !! lex = Some b ∧ bindingLe a b.

(** Whenever [f] returns, its states are related by [R]. *)
Definition respects (R : resolver → resolver → Prop)
    (f : resolver → result resolver) : Prop :=
  ∀ r r', f r = Ok r' → R r r'.

(** Expressions that open no scope and read no blank identifier: no function
    literal, no [_] as a value. *)
Fixpoint flatExpr (e : Expr) : bool :=
  match e with
  | FunExpr _ _ => false
  | GroupExpr e' => flatExpr e'
  | LiteralExpr => true
  | VariableExpr n => bool_decide (token.Lexeme n ≠ token.BlankIdent)
  | CallExpr c args => flatExpr c && forallb flatExpr args
  | UnaryExpr e' => flatExpr e'
  | BinaryExpr l r => flatExpr l && flatExpr r
  | TernaryExpr c t e' => flatExpr c && flatExpr t && flatExpr e'
  | AssignmentExpr _ r => flatExpr r
  end.


(** Statements that open no scope: no block, no function, no [for]. *)
Fixpoint flatStmt (s : Stmt) : bool :=
  match s with
  | VarDecl _ i => from_option flatExpr true i
  | FunDecl _ _ _ => false
  | ExprStmt e => flatExpr e
  | PrintStmt e => flatExpr e
  | BlockStmt _ => false
  | IfStmt c t e => flatExpr c && flatStmt t && from_option flatStmt true e
  | WhileStmt c b => flatExpr c && flatStmt b
  | ForStmt _ _ _ _ => false
  | BreakStmt => true
  | ContinueStmt => true
  | ReturnStmt v => from_option flatExpr true v
  end.


(** ** The stack *)

Section stack_facts.
Context {T : Type}.
Implicit Types (s : stack T) (v : T).

Lemma Index_lookup s i v : s !! i = Some v → Index i s = Ok v.
Proof. intros H. unfold Index. by rewrite H. Qed.

Lemma Pop_Push s v : Pop (s ++ [v]) = Ok (v, s).
Proof.
  unfold Pop. rewrite length_app. simpl.
  destruct (decide (length s + 1 = 0)) as [|_]; [lia|].
  replace (length s + 1 - 1) with (length s) by lia.
  rewrite (Index_lookup _ _ v).
  - simpl. by rewrite take_app_length.
  - by rewrite lookup_app_r, Nat.sub_diag.
Qed.

Lemma Peek_Push s v : Peek (s ++ [v]) = Ok v.
Proof.
  unfold Peek. rewrite length_app. simpl.
  destruct (decide (length s + 1 = 0)) as [|_]; [lia|].
  replace (length s + 1 - 1) with (length s) by lia.
  apply Index_lookup. by rewrite lookup_app_r, Nat.sub_diag.
Qed.

Lemma stack_cases s : s = [] ∨ ∃ s' v, s = s' ++ [v].
Proof. destruct s using rev_ind; eauto. Qed.

Lemma stack_nonempty s : length s ≠ 0 → ∃ s' v, s = s' ++ [v].
Proof. destruct (stack_cases s) as [->|?]; [done|auto]. Qed.

End stack_facts.

(** ** Scopes *)

Lemma IsDeclared_Some tok (s : scope) info :
  s !! token.Lexeme tok = Some info → IsDeclared tok s = true.
Proof. intros H. unfold IsDeclared. by rewrite H. Qed.

Lemma IsDeclared_None tok (s : scope) :
  s !! token.Lexeme tok = None → IsDeclared tok s = false.
Proof. intros H. unfold IsDeclared. by rewrite H. Qed.

Lemma Define_Some tok (s : scope) info :
  s !! token.Lexeme tok = Some info →
  Define tok s = Ok (<[token.Lexeme tok := defined info]> s).
Proof. intros H. unfold Define. by rewrite H. Qed.

Lemma Use_Some tok (s : scope) info :
  s !! token.Lexeme tok = Some info →
  Use tok s = Ok (<[token.Lexeme tok := used info]> s).
Proof. intros H. unfold Use. by rewrite H. Qed.

Lemma Declare_blank tok (s : scope) :
  s !! token.BlankIdent = None → Declare_ tok s !! token.BlankIdent = None.
Proof.
  intros H. unfold Declare_. case_decide; [done|].
  by rewrite lookup_insert_ne.
Qed.

Lemma lookups_length lex st : length (lookups lex st) = length st.
Proof. apply length_fmap. Qed.

Lemma lookups_lookup lex (st : stack scope) k :
  lookups lex st !! k = (λ s : scope, s !! lex) <$> st !! k.
Proof. apply list_lookup_fmap. Qed.

Lemma lookups_app lex st1 st2 :
  lookups lex (st1 ++ st2) = lookups lex st1 ++ lookups lex st2.
Proof. apply fmap_app. Qed.

Lemma lookups_insert lex (st : stack scope) i (s s' : scope) :
  st !! i = Some s → s' !! lex = s !! lex →
  lookups lex (<[i := s']> st) = lookups lex st.
Proof.
  intros Hi Hs. unfold lookups. rewrite list_fmap_insert, Hs.
  apply list_insert_id. by rewrite list_lookup_fmap, Hi.
Qed.

Lemma innermost_scope lex st i info :
  innermost lex st i info →
  ∃ s : scope, st !! i = Some s ∧ s !! lex = Some info ∧
    ∀ k (s' : scope), i < k → st !! k = Some s' → s' !! lex = None.
Proof.
  intros [Hi Hk]. rewrite lookups_lookup in Hi.
  destruct (st !! i) as [s|] eqn:E; simplify_eq/=.
  exists s. split_and!; [done..|].
  intros k s' Hlt Hs'. apply (Hk k); [done|].
  by rewrite lookups_lookup, Hs'.
Qed.

Lemma innermost_intro lex (st : stack scope) i (s : scope) info :
  st !! i = Some s → s !! lex = Some info →
  (∀ k (s' : scope), i < k → st !! k = Some s' → s' !! lex = None) →
  innermost lex st i info.
Proof.
  intros Hi Hs Hk. split.
  - rewrite lookups_lookup, Hi. simpl. by rewrite Hs.
  - intros k o Hlt. rewrite lookups_lookup.
    destruct (st !! k) as [s'|] eqn:E; simpl; [|done].
    intros [= <-]. eauto.
Qed.

(** Every lexeme is declared by an innermost scope or by none. *)
Lemma innermost_or_undeclared lex st :
  undeclared lex st ∨ ∃ i info, innermost lex st i info.
Proof.
  induction st as [|s st IH] using rev_ind.
  - left. intros k s. by rewrite lookup_nil.
  - destruct (s !! lex) as [info|] eqn:Hs.
    + right. exists (length st), info.
      apply (innermost_intro _ _ _ s); [|done|].
      * by rewrite lookup_app_r, Nat.sub_diag.
      * intros k s' Hlt Hk. apply lookup_lt_Some in Hk.
        rewrite length_app in Hk. simpl in Hk. lia.
    + destruct IH as [IH|(i & info & IH)].
      * left. intros k s' Hk.
        apply lookup_app_Some in Hk as [Hk|[_ Hk]]; [eauto|].
        apply list_lookup_singleton_Some in Hk as [_ <-]. done.
      * right. exists i, info.
        apply innermost_scope in IH as (si & Hi & Hsi & Hk).
        apply (innermost_intro _ _ _ si); [|done|].
        -- by apply lookup_app_l_Some.
        -- intros k s' Hlt Hk'.
           apply lookup_app_Some in Hk' as [Hk'|[_ Hk']]; [eauto|].
           apply list_lookup_singleton_Some in Hk' as [_ <-]. done.
Qed.

(** ** Declaring *)

Lemma declareIdent_global tok r : scopes r = [] → declareIdent tok r = Ok r.
Proof. intros H. unfold declareIdent, Len. by rewrite H. Qed.

Lemma declareIdent_top tok r st (s : scope) :
  scopes r = st ++ [s] →
  declareIdent tok r =
    Ok (if IsDeclared tok s
        then mkResolver (scopes r) (declDistancesByTok r)
               (errs r ++ [redeclaredDiag tok])
        else setScopes (st ++ [Declare_ tok s]) r).
Proof.
  intros H. unfold declareIdent, Len. rewrite H, Peek_Push, length_app. simpl.
  destruct (decide (length st + 1 = 0)) as [|_]; [lia|].
  destruct (IsDeclared tok s); [by rewrite <- H|].
  unfold storeScope. rewrite H.
  replace (length st + 1 - 1) with (length st + 0) by lia.
  by rewrite insert_app_r.
Qed.

Lemma declareIdent_fresh tok r st (s : scope) :
  scopes r = st ++ [s] → s !! token.Lexeme tok = None →
  token.Lexeme tok ≠ token.BlankIdent →
  declareIdent tok r =
    Ok (setScopes
          (st ++ [<[token.Lexeme tok := mkIdentInfo false false tok]> s]) r).
Proof.
  intros H Hs Hb. rewrite (declareIdent_top _ _ st s), IsDeclared_None by done.
  unfold Declare_. by case_decide.
Qed.

Lemma declareIdent_again tok r st (s : scope) info :
  scopes r = st ++ [s] → s !! token.Lexeme tok = Some info →
  declareIdent tok r =
    Ok (mkResolver (scopes r) (declDistancesByTok r)
          (errs r ++ [redeclaredDiag tok])).
Proof.
  intros H Hs. by rewrite (declareIdent_top _ _ st s), (IsDeclared_Some _ _ info).
Qed.

(** ** Defining *)

Lemma defineIdent_from_skip tok r n :
  n ≤ length (scopes r) →
  (∀ k (s : scope), k < n → scopes r !! k = Some s →
     s !! token.Lexeme tok = None) →
  defineIdent_from n tok r = Ok r.
Proof.
  induction n as [|m IH]; intros Hn Hk; [done|]. simpl.
  destruct (lookup_lt_is_Some_2 (scopes r) m) as [s Hs]; [lia|].
  rewrite (Index_lookup _ _ s) by done. simpl.
  rewrite IsDeclared_None by (apply (Hk m); [lia|done]).
  apply IH; [lia|]. intros k s' ?. apply Hk. lia.
Qed.

Lemma defineIdent_from_found tok r n i (s : scope) info :
  n ≤ length (scopes r) → i < n →
  scopes r !! i = Some s → s !! token.Lexeme tok = Some info →
  (∀ k (s' : scope), i < k → k < n → scopes r !! k = Some s' →
     s' !! token.Lexeme tok = None) →
  defineIdent_from n tok r =
    Ok (storeScope i (<[token.Lexeme tok := defined info]> s) r).
Proof.
  induction n as [|m IH]; intros Hn Hi Hs Hinfo Hk; [lia|]. simpl.
  destruct (decide (m = i)) as [->|Hne].
  - rewrite (Index_lookup _ _ s) by done. simpl.
    rewrite (IsDeclared_Some _ _ info), (Define_Some _ _ info) by done. done.
  - destruct (lookup_lt_is_Some_2 (scopes r) m) as [s' Hs']; [lia|].
    rewrite (Index_lookup _ _ s') by done. simpl.
    rewrite IsDeclared_None by (apply (Hk m); [lia..|done]).
    apply IH; [lia..|done|done|]. intros k s'' ??. apply Hk; lia.
Qed.

Lemma defineIdent_undeclared tok r :
  undeclared (token.Lexeme tok) (scopes r) → defineIdent tok r = Ok r.
Proof.
  intros H. apply defineIdent_from_skip; [done|]. intros k s _. apply H.
Qed.

Lemma defineIdent_innermost tok r i (s : scope) info :
  scopes r !! i = Some s →
  innermost (token.Lexeme tok) (scopes r) i info →
  defineIdent tok r =
    Ok (storeScope i (<[token.Lexeme tok := defined info]> s) r).
Proof.
  intros Hs (s' & Hs' & Hinfo & Hk)%innermost_scope. simplify_eq.
  apply defineIdent_from_found; [done| |done|done|].
  - unfold Len. by apply lookup_lt_Some in Hs.
  - intros k s'' ? _. by apply Hk.
Qed.

(** ** Looking up and using *)

Lemma resolveIdent_from_skip tok op r n :
  n ≤ length (scopes r) →
  (∀ k (s : scope), k < n → scopes r !! k = Some s →
     s !! token.Lexeme tok = None) →
  resolveIdent_from n tok op r = Ok r.
Proof.
  induction n as [|m IH]; intros Hn Hk; [done|]. simpl.
  destruct (lookup_lt_is_Some_2 (scopes r) m) as [s Hs]; [lia|].
  rewrite (Index_lookup _ _ s) by done. simpl.
  rewrite IsDeclared_None by (apply (Hk m); [lia|done]).
  apply IH; [lia|]. intros k s' ?. apply Hk. lia.
Qed.

Lemma resolveIdent_from_found tok op r n i (s : scope) info :
  n ≤ length (scopes r) → i < n →
  scopes r !! i = Some s → s !! token.Lexeme tok = Some info →
  (∀ k (s' : scope), i < k → k < n → scopes r !! k = Some s' →
     s' !! token.Lexeme tok = None) →
  resolveIdent_from n tok op r = Ok (resolvedAt tok op i s info r).
Proof.
  induction n as [|m IH]; intros Hn Hi Hs Hinfo Hk; [lia|]. simpl.
  destruct (decide (m = i)) as [->|Hne].
  - rewrite (Index_lookup _ _ s) by done. simpl.
    rewrite (IsDeclared_Some _ _ info), (Use_Some _ _ info) by done. simpl.
    unfold IsDefined. rewrite lookup_insert_eq. simpl.
    unfold resolvedAt. by destruct (negb (Defined info) && bool_decide (op = read)).
  - destruct (lookup_lt_is_Some_2 (scopes r) m) as [s' Hs']; [lia|].
    rewrite (Index_lookup _ _ s') by done. simpl.
    rewrite IsDeclared_None by (apply (Hk m); [lia..|done]).
    apply IH; [lia..|done|done|]. intros k s'' ??. apply Hk; lia.
Qed.

Lemma resolveIdent_undeclared tok op r :
  undeclared (token.Lexeme tok) (scopes r) → resolveIdent tok op r = Ok r.
Proof.
  intros H. apply resolveIdent_from_skip; [done|]. intros k s _. apply H.
Qed.

Lemma resolveIdent_innermost tok op r i (s : scope) info :
  scopes r !! i = Some s →
  innermost (token.Lexeme tok) (scopes r) i info →
  resolveIdent tok op r = Ok (resolvedAt tok op i s info r).
Proof.
  intros Hs (s' & Hs' & Hinfo & Hk)%innermost_scope. simplify_eq.
  apply resolveIdent_from_found; [done| |done|done|].
  - unfold Len. by apply lookup_lt_Some in Hs.
  - intros k s'' ? _. by apply Hk.
Qed.

(** ** Leaving a scope *)

Lemma UnusedIdents_filter range (s : scope) :
  UnusedIdents range s =
    Token <$> filter (λ info, Used info = false) ((range s).*2).
Proof.
  unfold UnusedIdents. generalize (range s). intros entries.
  enough (∀ acc,
    foldl (λ unused e, if negb (Used e.2) then unused ++ [Token e.2] else unused)
      acc entries
    = acc ++ (Token <$> filter (λ info, Used info = false) (entries.*2)))
    as H by apply (H []).
  induction entries as [|[k info] l IH]; intros acc.
  - simpl. by rewrite app_nil_r.
  - rewrite fmap_cons, filter_cons. simpl. rewrite IH.
    destruct (decide (Used info = false)) as [E|E].
    + rewrite E. simpl. by rewrite <- app_assoc.
    + by destruct (Used info).
Qed.

Lemma UnusedIdents_perm (ro : rangeOrder) r (s : scope) :
  UnusedIdents (entriesOf ro r) s ≡ₚ unusedOf s.
Proof.
  rewrite UnusedIdents_filter. unfold unusedOf.
  by rewrite (entriesOf_perm ro r s).
Qed.

Lemma foldl_addErr toks r :
  foldl (λ r' tok,
           addErr tok (token.Lexeme tok +:+ " has been declared but is never used") r')
    r toks
  = mkResolver (scopes r) (declDistancesByTok r)
      (errs r ++ (unusedDiag <$> toks)).
Proof.
  revert r. induction toks as [|tok toks IH]; intros r; simpl.
  - rewrite app_nil_r. by destruct r.
  - rewrite IH. simpl. unfold loxerror.AddFromToken, loxerror.Add.
    by rewrite <- app_assoc.
Qed.

Lemma endScope_Push ro r st (s : scope) :
  scopes r = st ++ [s] →
  endScope ro r =
    Ok (mkResolver st (declDistancesByTok r)
          (errs r ++ (unusedDiag <$> UnusedIdents (entriesOf ro r) s))).
Proof.
  intros H. unfold endScope. rewrite H, Pop_Push. simpl.
  by rewrite foldl_addErr.
Qed.

(** ** Scopes that do not declare a lexeme *)

Lemma undeclared_Forall lex st :
  undeclared lex st ↔ Forall (λ s : scope, s !! lex = None) st.
Proof. symmetry. apply Forall_lookup. Qed.

Lemma undeclared_nil lex : undeclared lex [].
Proof. apply undeclared_Forall. constructor. Qed.

Lemma undeclared_app lex st1 st2 :
  undeclared lex (st1 ++ st2) ↔ undeclared lex st1 ∧ undeclared lex st2.
Proof. rewrite !undeclared_Forall. apply Forall_app. Qed.

Lemma undeclared_singleton lex (s : scope) :
  undeclared lex [s] ↔ s !! lex = None.
Proof. by rewrite undeclared_Forall, Forall_singleton. Qed.

Lemma undeclared_insert lex st i (s : scope) :
  undeclared lex st → s !! lex = None → undeclared lex (<[i := s]> st).
Proof. rewrite !undeclared_Forall. intros H1 H2. by apply Forall_insert. Qed.

Lemma undeclared_store lex lex' st i (s : scope) v :
  undeclared lex st → st !! i = Some s → is_Some (s !! lex') →
  undeclared lex (<[i := <[lex' := v]> s]> st).
Proof.
  intros H Hi [info Hs]. apply undeclared_insert; [done|].
  destruct (decide (lex' = lex)) as [->|Hne].
  - rewrite (H i s Hi) in Hs. done.
  - rewrite lookup_insert_ne by done. eauto.
Qed.

(** ** Steps of the walk *)

Lemma stepOk_declareIdent tok : stepOk (declareIdent tok).
Proof.
  intros st dd. destruct (stack_cases st) as [->|(st' & s & ->)].
  - exists [], dd, []. split_and!; [done..|]. intros e.
    by rewrite declareIdent_global, app_nil_r.
  - destruct (IsDeclared tok s) eqn:E.
    + exists (st' ++ [s]), dd, [redeclaredDiag tok]. split_and!; [done..|].
      intros e. by rewrite (declareIdent_top _ _ st' s), E.
    + exists (st' ++ [Declare_ tok s]), dd, []. split_and!.
      * by rewrite !length_app.
      * unfold noBlank. rewrite !undeclared_app, !undeclared_singleton.
        intros [? ?]. split; [done|]. by apply Declare_blank.
      * intros e. by rewrite (declareIdent_top _ _ st' s), E, app_nil_r.
Qed.

Lemma stepOk_defineIdent tok : stepOk (defineIdent tok).
Proof.
  intros st dd.
  destruct (innermost_or_undeclared (token.Lexeme tok) st)
    as [H|(i & info & H)].
  - exists st, dd, []. split_and!; [done..|]. intros e.
    by rewrite defineIdent_undeclared, app_nil_r.
  - pose proof H as (s & Hs & Hinfo & _)%innermost_scope.
    exists (<[i := <[token.Lexeme tok := defined info]> s]> st), dd, [].
    split_and!.
    + apply length_insert.
    + intros Hb. by apply undeclared_store.
    + intros e. by rewrite (defineIdent_innermost _ _ i s info), app_nil_r.
Qed.

Lemma stepOk_resolveIdent tok op : stepOk (resolveIdent tok op).
Proof.
  intros st dd.
  destruct (innermost_or_undeclared (token.Lexeme tok) st)
    as [H|(i & info & H)].
  - exists st, dd, []. split_and!; [done..|]. intros e.
    by rewrite resolveIdent_undeclared, app_nil_r.
  - pose proof H as (s & Hs & Hinfo & _)%innermost_scope.
    destruct (negb (Defined info) && bool_decide (op = read)) eqn:E.
    + exists (<[i := <[token.Lexeme tok := used info]> s]> st), dd,
        [undefinedDiag tok].
      split_and!; [apply length_insert|intros Hb; by apply undeclared_store|].
      intros e. rewrite (resolveIdent_innermost _ _ _ i s info) by done.
      unfold resolvedAt. by rewrite E.
    + exists (<[i := <[token.Lexeme tok := used info]> s]> st),
        (<[tok := length st - 1 - i]> dd), [].
      split_and!; [apply length_insert|intros Hb; by apply undeclared_store|].
      intros e. rewrite (resolveIdent_innermost _ _ _ i s info) by done.
      unfold resolvedAt. rewrite E. simpl. by rewrite app_nil_r.
Qed.

Lemma stepOk_resolveVariableExpr tok : stepOk (resolveVariableExpr tok).
Proof.
  unfold resolveVariableExpr. case_decide; [|apply stepOk_resolveIdent].
  intros st dd. exists st, dd, [blankDiag tok]. by split_and!.
Qed.

(** ** Agreement of two runs *)

Lemma agree_refl r : agree r r.
Proof. by split_and!. Qed.

Lemma simulates_stepOk p : stepOk p → simulates p p.
Proof.
  intros Hp [st dd e1] [st2 dd2 e2] (Hst & Hdd & He); simplify_eq/=.
  destruct (Hp st2 dd2) as (st' & dd' & es & Hlen & Hb & Hrun).
  eexists _, _. rewrite !Hrun. split_and!; [done..| |done|done].
  split_and!; [done..|]. simpl. by rewrite He.
Qed.

Lemma simulates_ext (f1 f2 g1 g2 : resolver → result resolver) :
  (∀ r, f1 r = g1 r) → (∀ r, f2 r = g2 r) →
  simulates f1 f2 → simulates g1 g2.
Proof.
  intros H1 H2 H r1 r2 Hr. destruct (H r1 r2 Hr) as (r1' & r2' & ?).
  exists r1', r2'. by rewrite <- H1, <- H2.
Qed.

Lemma simulates_ret : simulates Ok Ok.
Proof. intros r1 r2 Hr. by exists r1, r2. Qed.

Lemma simulates_bind (f1 f2 : resolver → result resolver) g1 g2 :
  simulates f1 f2 → simulates g1 g2 →
  simulates (λ r, bind (f1 r) g1) (λ r, bind (f2 r) g2).
Proof.
  intros Hf Hg r1 r2 Hr.
  destruct (Hf r1 r2 Hr) as (r1' & r2' & -> & -> & Hr' & Hlen & Hb).
  destruct (Hg r1' r2' Hr') as (r1'' & r2'' & Hg1 & Hg2 & Hr'' & Hlen' & Hb').
  exists r1'', r2''. simpl. split_and!; [done..|congruence|auto].
Qed.

Lemma simulates_forEach {A : Type} (f1 f2 : A → resolver → result resolver) xs :
  list_all A (λ x, simulates (f1 x) (f2 x)) xs →
  simulates (forEach f1 xs) (forEach f2 xs).
Proof.
  induction 1 as [|x Hx xs _ IH]; simpl.
  - apply simulates_ret.
  - by apply (simulates_bind (f1 x) (f2 x)).
Qed.

Lemma simulates_forEach_all {A : Type}
    (f1 f2 : A → resolver → result resolver) xs :
  (∀ x, simulates (f1 x) (f2 x)) → simulates (forEach f1 xs) (forEach f2 xs).
Proof.
  intros H. apply simulates_forEach. induction xs; constructor; auto.
Qed.

Lemma simulates_ifNotNil {A : Type}
    (f1 f2 : A → resolver → result resolver) x :
  option_all A (λ x, simulates (f1 x) (f2 x)) x →
  simulates (ifNotNil f1 x) (ifNotNil f2 x).
Proof. destruct 1; simpl; [done|apply simulates_ret]. Qed.

Lemma simulates_scope ro1 ro2 (f1 f2 : resolver → result resolver) :
  simulates f1 f2 →
  simulates (λ r, bind (f1 (beginScope r)) (endScope ro1))
            (λ r, bind (f2 (beginScope r)) (endScope ro2)).
Proof.
  intros Hf r1 r2 (Hst & Hdd & He).
  destruct (Hf (beginScope r1) (beginScope r2))
    as (r1' & r2' & -> & -> & (Hst' & Hdd' & He') & Hlen & Hb).
  { split_and!; simpl; [by rewrite Hst|done..]. }
  simpl in Hlen. unfold Push in Hlen. rewrite length_app in Hlen. simpl in Hlen.
  destruct (stack_nonempty (scopes r1')) as (st & s & Hr1'); [lia|].
  simpl. rewrite (endScope_Push ro1 r1' st s), (endScope_Push ro2 r2' st s)
    by congruence.
  eexists _, _. split_and!; [done..| | |].
  - split_and!; simpl; [done..|].
    by rewrite !UnusedIdents_perm, He'.
  - simpl. rewrite Hr1', length_app in Hlen. simpl in Hlen. lia.
  - simpl. intros Hnb. unfold noBlank, beginScope, Push in Hb. simpl in Hb.
    rewrite Hr1', !undeclared_app, !undeclared_singleton in Hb.
    apply Hb. split; [done|]. apply lookup_empty.
Qed.

Lemma bind_assoc {A B C : Type} (m : result A) (f : A → result B)
    (g : B → result C) :
  bind (bind m f) g = bind m (λ x, bind (f x) g).
Proof. by destruct m. Qed.

Lemma simulates_declare_define (params : list token.Token) :
  simulates
    (forEach (λ param r', r'' <- declareIdent param r';; defineIdent param r'')
       params)
    (forEach (λ param r', r'' <- declareIdent param r';; defineIdent param r'')
       params).
Proof.
  apply simulates_forEach_all. intros param.
  apply (simulates_bind (declareIdent param) (declareIdent param)).
  - apply simulates_stepOk, stepOk_declareIdent.
  - apply simulates_stepOk, stepOk_defineIdent.
Qed.

Lemma simulates_resolveFun ro1 ro2
    (resolveStmt1 resolveStmt2 : Stmt → resolver → result resolver)
    params body :
  list_all Stmt (λ s, simulates (resolveStmt1 s) (resolveStmt2 s)) body →
  simulates (resolveFun ro1 resolveStmt1 params body)
            (resolveFun ro2 resolveStmt2 params body).
Proof.
  intros Hbody.
  set (declare_define :=
    forEach (λ param r', r'' <- declareIdent param r';; defineIdent param r'')
      params).
  apply (simulates_ext
    (λ r, bind (bind (declare_define (beginScope r))
                  (forEach resolveStmt1 body)) (endScope ro1))
    (λ r, bind (bind (declare_define (beginScope r))
                  (forEach resolveStmt2 body)) (endScope ro2))).
  - intros r. by rewrite bind_assoc.
  - intros r. by rewrite bind_assoc.
  - apply (simulates_scope ro1 ro2
      (λ r, bind (declare_define r) (forEach resolveStmt1 body))
      (λ r, bind (declare_define r) (forEach resolveStmt2 body))).
    apply (simulates_bind declare_define declare_define).
    + apply simulates_declare_define.
    + by apply simulates_forEach.
Qed.

Lemma simulates_resolveForStmt ro1 ro2
    (resolveStmt1 resolveStmt2 : Stmt → resolver → result resolver)
    (resolveExpr1 resolveExpr2 : Expr → resolver → result resolver)
    init cond update body :
  option_all Stmt (λ s, simulates (resolveStmt1 s) (resolveStmt2 s)) init →
  option_all Expr (λ e, simulates (resolveExpr1 e) (resolveExpr2 e)) cond →
  option_all Expr (λ e, simulates (resolveExpr1 e) (resolveExpr2 e)) update →
  simulates (resolveStmt1 body) (resolveStmt2 body) →
  simulates (resolveForStmt ro1 resolveStmt1 resolveExpr1 init cond update body)
            (resolveForStmt ro2 resolveStmt2 resolveExpr2 init cond update body).
Proof.
  intros Hinit Hcond Hupdate Hbody.
  set (walk := λ (resolveStmt' : Stmt → resolver → result resolver)
      (resolveExpr' : Expr → resolver → result resolver) (r : resolver),
    bind (ifNotNil resolveStmt' init r) (λ r1,
    bind (ifNotNil resolveExpr' cond r1) (λ r2,
    bind (ifNotNil resolveExpr' update r2) (resolveStmt' body)))).
  apply (simulates_ext
    (λ r, bind (walk resolveStmt1 resolveExpr1 (beginScope r)) (endScope ro1))
    (λ r, bind (walk resolveStmt2 resolveExpr2 (beginScope r)) (endScope ro2))).
  - intros r. unfold walk, resolveForStmt.
    destruct (ifNotNil resolveStmt1 init (beginScope r)) as [r1|]; [|done].
    simpl. destruct (ifNotNil resolveExpr1 cond r1) as [r2|]; [|done].
    simpl. by destruct (ifNotNil resolveExpr1 update r2).
  - intros r. unfold walk, resolveForStmt.
    destruct (ifNotNil resolveStmt2 init (beginScope r)) as [r1|]; [|done].
    simpl. destruct (ifNotNil resolveExpr2 cond r1) as [r2|]; [|done].
    simpl. by destruct (ifNotNil resolveExpr2 update r2).
  - apply simulates_scope. unfold walk.
    apply (simulates_bind (ifNotNil resolveStmt1 init)
             (ifNotNil resolveStmt2 init)); [by apply simulates_ifNotNil|].
    apply (simulates_bind (ifNotNil resolveExpr1 cond)
             (ifNotNil resolveExpr2 cond)); [by apply simulates_ifNotNil|].
    apply (simulates_bind (ifNotNil resolveExpr1 update)
             (ifNotNil resolveExpr2 update)); [by apply simulates_ifNotNil|].
    done.
Qed.

(** Two walks of one node, each with its own range order, agree. *)
Lemma walk_simulates ro1 ro2 :
  (∀ s, simulates (resolveStmt ro1 s) (resolveStmt ro2 s)) ∧
  (∀ e, simulates (resolveExpr ro1 e) (resolveExpr ro2 e)).
Proof.
  apply Stmt_Expr_ind.
  - (* VarDecl *)
    intros n i Hi. destruct Hi as [e He|].
    + apply (simulates_bind (resolveExpr ro1 e) (resolveExpr ro2 e)); [done|].
      apply (simulates_bind (declareIdent n) (declareIdent n)).
      * apply simulates_stepOk, stepOk_declareIdent.
      * apply simulates_stepOk, stepOk_defineIdent.
    + apply simulates_stepOk, stepOk_declareIdent.
  - (* FunDecl *)
    intros n ps b Hb.
    apply (simulates_bind (declareIdent n) (declareIdent n)).
    { apply simulates_stepOk, stepOk_declareIdent. }
    apply (simulates_bind (defineIdent n) (defineIdent n)).
    { apply simulates_stepOk, stepOk_defineIdent. }
    by apply simulates_resolveFun.
  - (* ExprStmt *) intros e He. exact He.
  - (* PrintStmt *) intros e He. exact He.
  - (* BlockStmt *)
    intros ss Hss.
    apply (simulates_scope ro1 ro2 (forEach (resolveStmt ro1) ss)
             (forEach (resolveStmt ro2) ss)).
    by apply simulates_forEach.
  - (* IfStmt *)
    intros c Hc t Ht e He.
    apply (simulates_bind (resolveExpr ro1 c) (resolveExpr ro2 c)); [done|].
    apply (simulates_bind (resolveStmt ro1 t) (resolveStmt ro2 t)); [done|].
    by apply simulates_ifNotNil.
  - (* WhileStmt *)
    intros c Hc b Hb.
    by apply (simulates_bind (resolveExpr ro1 c) (resolveExpr ro2 c)).
  - (* ForStmt *)
    intros i Hi c Hc u Hu b Hb. by apply simulates_resolveForStmt.
  - (* BreakStmt *) apply simulates_ret.
  - (* ContinueStmt *) apply simulates_ret.
  - (* ReturnStmt *) intros v Hv. by apply simulates_ifNotNil.
  - (* FunExpr *) intros ps b Hb. by apply simulates_resolveFun.
  - (* GroupExpr *) intros e He. exact He.
  - (* LiteralExpr *) apply simulates_ret.
  - (* VariableExpr *)
    intros n. apply simulates_stepOk, stepOk_resolveVariableExpr.
  - (* CallExpr *)
    intros c Hc args Hargs.
    apply (simulates_bind (resolveExpr ro1 c) (resolveExpr ro2 c)); [done|].
    by apply simulates_forEach.
  - (* UnaryExpr *) intros e He. exact He.
  - (* BinaryExpr *)
    intros l Hl r Hr.
    by apply (simulates_bind (resolveExpr ro1 l) (resolveExpr ro2 l)).
  - (* TernaryExpr *)
    intros c Hc t Ht e He.
    apply (simulates_bind (resolveExpr ro1 c) (resolveExpr ro2 c)); [done|].
    by apply (simulates_bind (resolveExpr ro1 t) (resolveExpr ro2 t)).
  - (* AssignmentExpr *)
    intros l r Hr.
    apply (simulates_bind (resolveExpr ro1 r) (resolveExpr ro2 r)); [done|].
    apply (simulates_bind (resolveIdent l write) (resolveIdent l write)).
    + apply simulates_stepOk, stepOk_resolveIdent.
    + apply simulates_stepOk, stepOk_defineIdent.
Qed.

Lemma resolveProgram_simulates ro1 ro2 program :
  simulates (resolveProgram ro1 program) (resolveProgram ro2 program).
Proof.
  apply simulates_forEach.
  induction (Stmts program); constructor; [apply walk_simulates|done].
Qed.

(** The walk of a statement never panics and leaves the stack as deep as it
    found it. *)
Lemma resolveStmt_total ro s r :
  ∃ r', resolveStmt ro s r = Ok r' ∧
    length (scopes r') = length (scopes r) ∧
    (noBlank (scopes r) → noBlank (scopes r')).
Proof.
  destruct (proj1 (walk_simulates ro ro) s r r (agree_refl r))
    as (r1 & r2 & H1 & H2 & _ & Hlen & Hb).
  by exists r1.
Qed.

Lemma resolveExpr_total ro e r :
  ∃ r', resolveExpr ro e r = Ok r' ∧
    length (scopes r') = length (scopes r) ∧
    (noBlank (scopes r) → noBlank (scopes r')).
Proof.
  destruct (proj2 (walk_simulates ro ro) e r r (agree_refl r))
    as (r1 & r2 & H1 & H2 & _ & Hlen & Hb).
  by exists r1.
Qed.

Lemma resolveProgram_total ro program r :
  ∃ r', resolveProgram ro program r = Ok r' ∧
    length (scopes r') = length (scopes r).
Proof.
  destruct (resolveProgram_simulates ro ro program r r (agree_refl r))
    as (r1 & r2 & H1 & H2 & _ & Hlen & Hb).
  by exists r1.
Qed.

Lemma stepOk_noBlank p r r' :
  stepOk p → noBlank (scopes r) → p r = Ok r' → noBlank (scopes r').
Proof.
  intros Hp Hb Hr. destruct r as [st dd e].
  destruct (Hp st dd) as (st' & dd' & es & _ & Hb' & Hrun).
  rewrite Hrun in Hr. simplify_eq/=. auto.
Qed.

(** ** Define on a name no scope declares *)

(** C10: for a token whose lexeme no scope of the stack declares, and so for
    every token when the stack is empty, as it is at the top level,
    [defineIdent] returns without a panic and leaves the scopes, the stack,
    the distances and the diagnostics as they were; so does the assignment of
    a literal to such a name at the top level. *)
Theorem defineIdent_undeclared_noop tok r :
  (∀ k (s : scope), scopes r !! k = Some s → s !! token.Lexeme tok = None) →
  defineIdent tok r = Ok r ∧
  (scopes r = [] →
     ∀ ro, resolveExpr ro (AssignmentExpr tok LiteralExpr) r = Ok r).
Proof.
  intros H. split; [by apply defineIdent_undeclared|].
  intros Hnil ro. simpl. unfold resolveAssignmentExpr, resolveLiteralExpr.
  simpl. rewrite resolveIdent_undeclared by done. simpl.
  by apply defineIdent_undeclared.
Qed.

Lemma defineIdent_undeclared_noop_witness :
  defineIdent (tokenAt 2 0 "y") inBlockWithX = Ok inBlockWithX ∧
  defineIdent (tokenAt 1 0 "x") newResolver = Ok newResolver.
Proof.
  split.
  - apply (defineIdent_undeclared_noop (tokenAt 2 0 "y") inBlockWithX).
    intros [|k] s H; [|done]. simpl in H. by simplify_eq.
  - apply (defineIdent_undeclared_noop (tokenAt 1 0 "x") newResolver).
    intros k s H. done.
Defined.

(** ** Lookup-and-use *)

(** C4: when scope [i] is the innermost scope that declares the lexeme,
    [resolveIdent] marks the binding used; it appends a "not defined"
    diagnostic and records no distance exactly when the mode is read and the
    binding is not defined; in every other case it records the distance
    [Len - 1 - i] under the token and appends nothing. *)
Theorem resolveIdent_found tok op r i (s : scope) info :
  scopes r !! i = Some s →
  s !! token.Lexeme tok = Some info →
  (∀ k (s' : scope), i < k → scopes r !! k = Some s' →
     s' !! token.Lexeme tok = None) →
  resolveIdent tok op r =
    Ok (mkResolver
          (<[i := <[token.Lexeme tok :=
                      mkIdentInfo (Defined info) true (Token info)]> s]>
             (scopes r))
          (if decide (op = read ∧ Defined info = false)
           then declDistancesByTok r
           else <[tok := length (scopes r) - 1 - i]> (declDistancesByTok r))
          (if decide (op = read ∧ Defined info = false)
           then errs r ++ [undefinedDiag tok]
           else errs r)).
Proof.
  intros Hs Hinfo Hk.
  rewrite (resolveIdent_innermost tok op r i s info);
    [|done|by apply (innermost_intro _ _ _ s)].
  unfold resolvedAt, used.
  destruct op, (Defined info); simpl; by repeat case_decide; intuition.
Qed.

Lemma resolveIdent_found_witness :
  resolveIdent (tokenAt 1 15 "x") read inBlockWithX =
    Ok (mkResolver [{[ "x" := mkIdentInfo true true (tokenAt 1 6 "x") ]}]
          {[ tokenAt 1 15 "x" := 0 ]} []).
Proof.
  rewrite (resolveIdent_found (tokenAt 1 15 "x") read inBlockWithX 0
             {[ "x" := mkIdentInfo true false (tokenAt 1 6 "x") ]}
             (mkIdentInfo true false (tokenAt 1 6 "x"))).
  - reflexivity.
  - reflexivity.
  - reflexivity.
  - intros [|k] s' Hlt H; [lia|done].
Defined.

(** ** The order of the diagnostics *)

Lemma Compare_total p q :
  (token.Compare p q ≤ 0)%Z ∨ (token.Compare q p ≤ 0)%Z.
Proof.
  unfold token.Compare, token.cmpCompare.
  repeat (case_match; try lia).
Qed.

Lemma Compare_trans p q t :
  (token.Compare p q ≤ 0)%Z → (token.Compare q t ≤ 0)%Z →
  (token.Compare p t ≤ 0)%Z.
Proof.
  unfold token.Compare, token.cmpCompare.
  repeat (case_match; try lia).
Qed.

Global Instance before_total : Total loxerror.before.
Proof. intros e1 e2. apply Compare_total. Qed.

Global Instance before_trans : Transitive loxerror.before.
Proof. intros e1 e2 e3. apply Compare_trans. Qed.

Lemma SortFunc_sorted e : StronglySorted loxerror.before (loxerror.SortFunc e).
Proof. apply StronglySorted_merge_sort; apply _. Qed.

Lemma SortFunc_perm e : loxerror.SortFunc e ≡ₚ e.
Proof. apply merge_sort_Permutation. Qed.

Lemma Err_nil : loxerror.Err [] = None.
Proof. done. Qed.

Lemma Err_cons d e : loxerror.Err (d :: e) = Some (loxerror.SortFunc (d :: e)).
Proof. done. Qed.

(** ** The result of the pass *)

(** C8: for every program the pass ends, in a state [r']; if its diagnostics
    are empty, [resolve] returns the distances and no error; otherwise it
    returns no distances and one error that holds the diagnostics, each one
    once, sorted by start position. *)
Theorem resolve_result ro program :
  ∃ r', resolveProgram ro program newResolver = Ok r' ∧
    ((errs r' = [] ∧
      resolve ro program = Ok (Some (declDistancesByTok r'), None)) ∨
     (errs r' ≠ [] ∧
      ∃ ds, resolve ro program = Ok (None, Some ds) ∧
        ds ≡ₚ errs r' ∧ StronglySorted loxerror.before ds)).
Proof.
  destruct (resolveProgram_total ro program newResolver) as (r' & Hr' & _).
  exists r'. split; [done|].
  unfold resolve, Resolve. rewrite Hr'. simpl.
  destruct (errs r') as [|d e] eqn:He.
  - left. by rewrite Err_nil.
  - right. split; [done|]. rewrite Err_cons.
    exists (loxerror.SortFunc (d :: e)).
    split_and!; [done|apply SortFunc_perm|apply SortFunc_sorted].
Qed.

(** ** Two runs *)

(** C9: two runs on one program, each from a fresh resolver and with its own
    order of ranging over the scopes, end without a panic, with the same
    distances and the same diagnostics up to their order; [resolve] returns
    the same map, and errors holding the same diagnostics. *)
Theorem resolve_twice ro1 ro2 program :
  ∃ r1 r2,
    resolveProgram ro1 program newResolver = Ok r1 ∧
    resolveProgram ro2 program newResolver = Ok r2 ∧
    declDistancesByTok r1 = declDistancesByTok r2 ∧
    errs r1 ≡ₚ errs r2 ∧
    ∃ m d1 d2,
      resolve ro1 program = Ok (m, d1) ∧
      resolve ro2 program = Ok (m, d2) ∧
      option_Forall2 (≡ₚ) d1 d2.
Proof.
  destruct (resolveProgram_simulates ro1 ro2 program newResolver newResolver
              (agree_refl _))
    as (r1 & r2 & H1 & H2 & (_ & Hdd & He) & _).
  exists r1, r2. split_and!; [done..|].
  unfold resolve, Resolve. rewrite H1, H2. simpl.
  destruct (errs r1) as [|d1 e1] eqn:He1, (errs r2) as [|d2 e2] eqn:He2.
  - rewrite Err_nil. eexists _, _, _. split_and!; [done| |constructor].
    by rewrite Hdd.
  - by apply Permutation_nil_cons in He.
  - symmetry in He. by apply Permutation_nil_cons in He.
  - rewrite !Err_cons. eexists _, _, _. split_and!; [done..|].
    constructor. by rewrite !SortFunc_perm.
Qed.

(** ** Leaving a scope with at most one unused binding *)

Lemma unusedOf_empty : unusedOf ∅ = [].
Proof. unfold unusedOf. by rewrite map_to_list_empty. Qed.

Lemma unusedOf_singleton k info :
  unusedOf {[ k := info ]} = if Used info then [] else [Token info].
Proof.
  unfold unusedOf. rewrite map_to_list_singleton. simpl.
  rewrite filter_cons, filter_nil. simpl. by destruct (Used info).
Qed.

Lemma endScope_none ro r st (s : scope) :
  scopes r = st ++ [s] → unusedOf s = [] →
  endScope ro r = Ok (mkResolver st (declDistancesByTok r) (errs r)).
Proof.
  intros H Hs. rewrite (endScope_Push ro r st s H).
  pose proof (UnusedIdents_perm ro r s) as Hp. rewrite Hs in Hp.
  apply Permutation_nil_r in Hp. rewrite Hp. simpl. by rewrite app_nil_r.
Qed.

Lemma endScope_one ro r st (s : scope) tok :
  scopes r = st ++ [s] → unusedOf s = [tok] →
  endScope ro r =
    Ok (mkResolver st (declDistancesByTok r) (errs r ++ [unusedDiag tok])).
Proof.
  intros H Hs. rewrite (endScope_Push ro r st s H).
  pose proof (UnusedIdents_perm ro r s) as Hp. rewrite Hs in Hp.
  apply Permutation_singleton_r in Hp. by rewrite Hp.
Qed.

(** ** The blank identifier *)

Lemma endScope_noBlank ro r r' :
  noBlank (scopes r) → endScope ro r = Ok r' → noBlank (scopes r').
Proof.
  intros Hb Hr. destruct (stack_cases (scopes r)) as [H|(st & s & H)].
  - unfold endScope, Pop in Hr. by rewrite H in Hr.
  - rewrite (endScope_Push ro r st s H) in Hr. simplify_eq/=.
    unfold noBlank in Hb. rewrite H, undeclared_app in Hb. apply Hb.
Qed.

Lemma resolveIdent_blank tok op r :
  token.Lexeme tok = token.BlankIdent → noBlank (scopes r) →
  resolveIdent tok op r = Ok r.
Proof. intros Ht Hb. apply resolveIdent_undeclared. by rewrite Ht. Qed.

Lemma defineIdent_blank tok r :
  token.Lexeme tok = token.BlankIdent → noBlank (scopes r) →
  defineIdent tok r = Ok r.
Proof. intros Ht Hb. apply defineIdent_undeclared. by rewrite Ht. Qed.

(** C6: a read of the blank identifier appends exactly one diagnostic, in
    every state; an assignment to the blank identifier appends none of its
    own, so [_ = 5;] resolves with no diagnostic; and no scope ever has the
    blank identifier as a key: the fresh resolver has none, [Declare_] never
    adds it, and every operation and every walk keeps the stack free of
    it. *)
Theorem blank_identifier ro tok r :
  token.Lexeme tok = token.BlankIdent →
  resolveExpr ro (VariableExpr tok) r =
    Ok (mkResolver (scopes r) (declDistancesByTok r)
          (errs r ++ [blankDiag tok])) ∧
  resolve ro (mkProgram [ExprStmt (AssignmentExpr tok LiteralExpr)]) =
    Ok (Some ∅, None) ∧
  (noBlank (scopes r) →
     ∀ e, resolveExpr ro (AssignmentExpr tok e) r = resolveExpr ro e r) ∧
  noBlank (scopes newResolver) ∧
  (∀ t (s : scope),
     s !! token.BlankIdent = None → Declare_ t s !! token.BlankIdent = None) ∧
  (noBlank (scopes r) →
     noBlank (scopes (beginScope r)) ∧
     (∀ t r', declareIdent t r = Ok r' → noBlank (scopes r')) ∧
     (∀ t r', defineIdent t r = Ok r' → noBlank (scopes r')) ∧
     (∀ t op r', resolveIdent t op r = Ok r' → noBlank (scopes r')) ∧
     (∀ r', endScope ro r = Ok r' → noBlank (scopes r')) ∧
     (∀ s r', resolveStmt ro s r = Ok r' → noBlank (scopes r')) ∧
     (∀ e r', resolveExpr ro e r = Ok r' → noBlank (scopes r'))).
Proof.
  intros Ht. split_and!.
  - simpl. unfold resolveVariableExpr. by rewrite decide_True.
  - reflexivity.
  - intros Hb e. simpl. unfold resolveAssignmentExpr.
    destruct (resolveExpr_total ro e r) as (r1 & -> & _ & Hb1). simpl.
    rewrite resolveIdent_blank by auto. simpl.
    by rewrite defineIdent_blank by auto.
  - apply undeclared_nil.
  - intros t s. apply Declare_blank.
  - intros Hb. split_and!.
    + unfold noBlank, beginScope, Push. simpl.
      rewrite undeclared_app, undeclared_singleton. split; [done|].
      apply lookup_empty.
    + intros t r'.
      apply (stepOk_noBlank (declareIdent t)); [apply stepOk_declareIdent|done].
    + intros t r'.
      apply (stepOk_noBlank (defineIdent t)); [apply stepOk_defineIdent|done].
    + intros t op r'.
      apply (stepOk_noBlank (resolveIdent t op));
        [apply stepOk_resolveIdent|done].
    + intros r'. by apply endScope_noBlank.
    + intros s r' Hr'.
      destruct (resolveStmt_total ro s r) as (r1 & Hr1 & _ & Hb1).
      rewrite Hr1 in Hr'. simplify_eq. auto.
    + intros e r' Hr'.
      destruct (resolveExpr_total ro e r) as (r1 & Hr1 & _ & Hb1).
      rewrite Hr1 in Hr'. simplify_eq. auto.
Qed.

Lemma blank_identifier_witness :
  resolveExpr codeOrder (VariableExpr (tokenAt 1 6 "_")) inBlockWithX =
    Ok (mkResolver (scopes inBlockWithX) ∅ [blankDiag (tokenAt 1 6 "_")]) ∧
  resolve codeOrder
    (mkProgram [ExprStmt (AssignmentExpr (tokenAt 1 0 "_") LiteralExpr)]) =
    Ok (Some ∅, None).
Proof.
  split.
  - apply (blank_identifier codeOrder (tokenAt 1 6 "_") inBlockWithX).
    reflexivity.
  - apply (blank_identifier codeOrder (tokenAt 1 0 "_") inBlockWithX).
    reflexivity.
Defined.

(** ** Steps at a known place of the stack *)

Lemma insert_middle {A : Type} (l1 l2 : list A) x y :
  <[length l1 := y]> (l1 ++ x :: l2) = l1 ++ y :: l2.
Proof.
  rewrite insert_app_r_alt by lia. by rewrite Nat.sub_diag.
Qed.

Lemma innermost_middle lex st1 (s : scope) st2 info :
  s !! lex = Some info → undeclared lex st2 →
  innermost lex (st1 ++ s :: st2) (length st1) info.
Proof.
  intros Hs Hu. apply (innermost_intro _ _ _ s); [|done|].
  - by rewrite lookup_app_r, Nat.sub_diag.
  - intros k s' Hlt Hk. rewrite lookup_app_r in Hk by lia.
    destruct (k - length st1) as [|j] eqn:E; [lia|]. simpl in Hk. eauto.
Qed.

Lemma defineIdent_at tok r st1 (s : scope) st2 info :
  scopes r = st1 ++ s :: st2 →
  s !! token.Lexeme tok = Some info →
  undeclared (token.Lexeme tok) st2 →
  defineIdent tok r =
    Ok (mkResolver (st1 ++ <[token.Lexeme tok := defined info]> s :: st2)
          (declDistancesByTok r) (errs r)).
Proof.
  intros H Hs Hu.
  rewrite (defineIdent_innermost tok r (length st1) s info).
  - unfold storeScope, setScopes. by rewrite H, insert_middle.
  - by rewrite H, lookup_app_r, Nat.sub_diag.
  - rewrite H. by apply innermost_middle.
Qed.

Lemma resolveIdent_at tok op r st1 (s : scope) st2 info :
  scopes r = st1 ++ s :: st2 →
  s !! token.Lexeme tok = Some info →
  undeclared (token.Lexeme tok) st2 →
  resolveIdent tok op r =
    Ok (if negb (Defined info) && bool_decide (op = read)
        then mkResolver (st1 ++ <[token.Lexeme tok := used info]> s :: st2)
               (declDistancesByTok r) (errs r ++ [undefinedDiag tok])
        else mkResolver (st1 ++ <[token.Lexeme tok := used info]> s :: st2)
               (<[tok := length st2]> (declDistancesByTok r)) (errs r)).
Proof.
  intros H Hs Hu.
  rewrite (resolveIdent_innermost tok op r (length st1) s info).
  - unfold resolvedAt. rewrite H, insert_middle, length_app. simpl.
    by replace (length st1 + S (length st2) - 1 - length st1)
      with (length st2) by lia.
  - by rewrite H, lookup_app_r, Nat.sub_diag.
  - rewrite H. by apply innermost_middle.
Qed.

Lemma resolveVariableExpr_read tok r :
  token.Lexeme tok ≠ token.BlankIdent →
  resolveVariableExpr tok r = resolveIdent tok read r.
Proof. intros H. unfold resolveVariableExpr. by rewrite decide_False. Qed.

Lemma unusedOf_insert_singleton k info info' :
  unusedOf (<[k := info']> {[ k := info ]}) =
    if Used info' then [] else [Token info'].
Proof. by rewrite insert_singleton_eq, unusedOf_singleton. Qed.

(** Unfolds the walk down to the operations on the scope stack. *)
Ltac walk :=
  repeat first
    [ progress cbn [resolveProgram Stmts forEach ifNotNil resolveStmt
                    resolveExpr bind]
    | progress unfold resolve, Resolve, resolveVarDecl, resolveFunDecl,
        resolveFun, resolveExprStmt, resolvePrintStmt, resolveBlockStmt,
        resolveIfStmt, resolveWhileStmt, resolveForStmt, resolveBreakStmt,
        resolveContinueStmt, resolveReturnStmt, resolveFunExpr,
        resolveGroupExpr, resolveLiteralExpr, resolveBinaryExpr,
        resolveTernaryExpr, resolveCallExpr, resolveUnaryExpr,
        resolveAssignmentExpr ].

(** ** Redeclaration *)

(** C2, as the code has it: inside a block the second of two declarations of
    one name appends exactly one "already declared" diagnostic, at the second
    token, and leaves the scopes, and so the first binding, as they were: the
    block [{ var x; var x; }] ends with that diagnostic and with the "never
    used" diagnostic of the first [x]; at the top level, where no scope is on
    the stack, [var x; var x;] resolves with no diagnostic. *)
Theorem redeclaration ro x1 x2 :
  token.Lexeme x2 = token.Lexeme x1 →
  token.Lexeme x1 ≠ token.BlankIdent →
  (∀ r st (s : scope) info,
     scopes r = st ++ [s] → s !! token.Lexeme x1 = Some info →
     declareIdent x2 r =
       Ok (mkResolver (scopes r) (declDistancesByTok r)
             (errs r ++ [redeclaredDiag x2]))) ∧
  resolveProgram ro
    (mkProgram [BlockStmt [VarDecl x1 None; VarDecl x2 None]]) newResolver =
    Ok (mkResolver [] ∅ [redeclaredDiag x2; unusedDiag x1]) ∧
  resolve ro (mkProgram [VarDecl x1 None; VarDecl x2 None]) =
    Ok (Some ∅, None).
Proof.
  intros He Hb. split_and!.
  - intros r st s info H Hs. apply (declareIdent_again _ _ st s info); [done|].
    by rewrite He.
  - walk.
    rewrite (declareIdent_fresh x1 _ [] ∅) by (done || apply lookup_empty).
    walk.
    rewrite (declareIdent_again x2 _ []
               {[ token.Lexeme x1 := mkIdentInfo false false x1 ]}
               (mkIdentInfo false false x1));
      [|done|by rewrite He, lookup_singleton_eq].
    walk.
    rewrite (endScope_one ro _ []
               {[ token.Lexeme x1 := mkIdentInfo false false x1 ]} x1);
      [done|done|by rewrite unusedOf_singleton].
  - reflexivity.
Qed.

Lemma redeclaration_witness :
  resolveProgram codeOrder
    (mkProgram [BlockStmt [VarDecl (tokenAt 1 6 "x") None;
                           VarDecl (tokenAt 1 13 "x") None]]) newResolver =
    Ok (mkResolver [] ∅
          [redeclaredDiag (tokenAt 1 13 "x"); unusedDiag (tokenAt 1 6 "x")]).
Proof.
  apply (redeclaration codeOrder (tokenAt 1 6 "x") (tokenAt 1 13 "x")).
  - reflexivity.
  - discriminate.
Defined.

(** C2 as stated fails: the program [var x; var x;] declares [x] twice at the
    top level, and the resolver emits no diagnostic at all. *)
Lemma redeclaration_top_level_counterexample :
  resolve codeOrder
    (mkProgram [VarDecl (tokenAt 1 4 "x") None;
                VarDecl (tokenAt 1 11 "x") None]) = Ok (Some ∅, None) ∧
  resolveProgram codeOrder
    (mkProgram [VarDecl (tokenAt 1 4 "x") None;
                VarDecl (tokenAt 1 11 "x") None]) newResolver =
    Ok (mkResolver [] ∅ []).
Proof. split; reflexivity. Qed.

(** ** Unused bindings *)

(** C5: popping a scope appends one "declared but never used" diagnostic, at
    the binding's token, for each binding of the scope with [Used = false],
    and nothing else; a found reference, read or write, sets [Used]; so
    [{ var x; }] yields exactly that diagnostic for [x], and
    [{ var x; x = 1; }] yields none. *)
Theorem unused_bindings ro x x' :
  token.Lexeme x' = token.Lexeme x →
  token.Lexeme x ≠ token.BlankIdent →
  (∀ r st (s : scope),
     scopes r = st ++ [s] →
     ∃ ds, endScope ro r =
             Ok (mkResolver st (declDistancesByTok r) (errs r ++ ds)) ∧
       ds ≡ₚ unusedDiag <$>
               (Token <$> filter (λ info, Used info = false)
                            ((map_to_list s).*2))) ∧
  (∀ op r i (s : scope) info,
     scopes r !! i = Some s → s !! token.Lexeme x = Some info →
     (∀ k (s' : scope), i < k → scopes r !! k = Some s' →
        s' !! token.Lexeme x = None) →
     ∃ r' (s' : scope) info',
       resolveIdent x' op r = Ok r' ∧ scopes r' !! i = Some s' ∧
       s' !! token.Lexeme x = Some info' ∧ Used info' = true) ∧
  resolve ro (mkProgram [BlockStmt [VarDecl x None]]) =
    Ok (None, Some [unusedDiag x]) ∧
  resolve ro
    (mkProgram [BlockStmt [VarDecl x None;
                           ExprStmt (AssignmentExpr x' LiteralExpr)]]) =
    Ok (Some {[ x' := 0 ]}, None).
Proof.
  intros He Hb. split_and!.
  - intros r st s H. eexists. split; [by apply endScope_Push|].
    by rewrite UnusedIdents_perm.
  - intros op r i s info Hi Hs Hk. rewrite <- He in Hs, Hk |- *.
    rewrite (resolveIdent_innermost x' op r i s info);
      [|done|by apply (innermost_intro _ _ _ s)].
    eexists _, (<[token.Lexeme x' := used info]> s), (used info).
    split_and!; [done| |by rewrite lookup_insert_eq|done].
    apply lookup_lt_Some in Hi.
    unfold resolvedAt. case_match; simpl; by rewrite list_lookup_insert_eq.
  - walk.
    rewrite (declareIdent_fresh x _ [] ∅) by (done || apply lookup_empty).
    walk.
    rewrite (endScope_one ro _ []
               {[ token.Lexeme x := mkIdentInfo false false x ]} x);
      [done|done|by rewrite unusedOf_singleton].
  - walk.
    rewrite (declareIdent_fresh x _ [] ∅) by (done || apply lookup_empty).
    walk.
    rewrite (resolveIdent_at x' write _ []
               {[ token.Lexeme x := mkIdentInfo false false x ]} []
               (mkIdentInfo false false x));
      [|done|by rewrite He, lookup_singleton_eq|apply undeclared_nil].
    walk.
    rewrite (defineIdent_at x' _ []
               (<[token.Lexeme x' := used (mkIdentInfo false false x)]>
                  {[ token.Lexeme x := mkIdentInfo false false x ]}) []
               (used (mkIdentInfo false false x)));
      [|done|by rewrite lookup_insert_eq|apply undeclared_nil].
    walk.
    erewrite (endScope_none ro _ []); [done|done|].
    rewrite He, insert_insert_eq. by rewrite unusedOf_insert_singleton.
Qed.

Lemma unused_bindings_witness :
  resolve codeOrder (mkProgram [BlockStmt [VarDecl (tokenAt 1 6 "x") None]]) =
    Ok (None, Some [unusedDiag (tokenAt 1 6 "x")]) ∧
  resolve codeOrder
    (mkProgram [BlockStmt [VarDecl (tokenAt 1 6 "x") None;
                           ExprStmt (AssignmentExpr (tokenAt 1 9 "x")
                                       LiteralExpr)]]) =
    Ok (Some {[ tokenAt 1 9 "x" := 0 ]}, None).
Proof.
  split.
  - apply (unused_bindings codeOrder (tokenAt 1 6 "x") (tokenAt 1 9 "x")).
    + reflexivity.
    + discriminate.
  - apply (unused_bindings codeOrder (tokenAt 1 6 "x") (tokenAt 1 9 "x")).
    + reflexivity.
    + discriminate.
Defined.

(** ** Initialisers *)

(** C3: a variable declaration with an initialiser resolves the initialiser,
    then declares the name, then defines it.  So in [var x = x;] the read on
    the right never refers to the binding being declared: where no scope
    declares [x], the read records nothing and appends no diagnostic, and the
    whole program [var x = x;] resolves with an empty map and no error; where
    an outer scope declares and defines [x], the read records the distance to
    that scope, at least 1, marks that binding used, and the fresh binding is
    left defined and unused. *)
Theorem initialiser_before_declaration ro name rd :
  token.Lexeme rd = token.Lexeme name →
  token.Lexeme name ≠ token.BlankIdent →
  (∀ e r,
     resolveStmt ro (VarDecl name (Some e)) r =
       (r1 <- resolveExpr ro e r;;
        r2 <- declareIdent name r1;;
        defineIdent name r2)) ∧
  (∀ r, undeclared (token.Lexeme name) (scopes r) →
     ∃ r', resolveStmt ro (VarDecl name (Some (VariableExpr rd))) r = Ok r' ∧
       declDistancesByTok r' = declDistancesByTok r ∧
       errs r' = errs r ∧
       (∀ st (top : scope), scopes r = st ++ [top] →
          scopes r' =
            st ++ [<[token.Lexeme name := mkIdentInfo true false name]> top])) ∧
  (∀ r st1 (s : scope) st2 (top : scope) info,
     scopes r = st1 ++ s :: st2 ++ [top] →
     s !! token.Lexeme name = Some info → Defined info = true →
     undeclared (token.Lexeme name) (st2 ++ [top]) →
     resolveStmt ro (VarDecl name (Some (VariableExpr rd))) r =
       Ok (mkResolver
             (st1 ++ <[token.Lexeme name :=
                         mkIdentInfo true true (Token info)]> s
                  :: st2 ++
                  [<[token.Lexeme name := mkIdentInfo true false name]> top])
             (<[rd := S (length st2)]> (declDistancesByTok r))
             (errs r))) ∧
  resolve ro (mkProgram [VarDecl name (Some (VariableExpr rd))]) =
    Ok (Some ∅, None).
Proof.
  intros He Hb. split_and!.
  - done.
  - intros r Hu. walk.
    rewrite resolveVariableExpr_read by congruence.
    rewrite resolveIdent_undeclared by (by rewrite He). walk.
    destruct (stack_cases (scopes r)) as [H|(st & top & H)].
    + rewrite declareIdent_global by done. walk.
      rewrite defineIdent_undeclared by done.
      eexists. split_and!; [done..|]. intros st top H'. rewrite H in H'.
      by destruct st.
    + assert (top !! token.Lexeme name = None) as Htop.
      { rewrite H in Hu. apply undeclared_app in Hu as [_ Hu].
        by apply undeclared_singleton. }
      rewrite (declareIdent_fresh name r st top) by done. walk.
      rewrite (defineIdent_at name _ st
                 (<[token.Lexeme name := mkIdentInfo false false name]> top) []
                 (mkIdentInfo false false name));
        [|done|by rewrite lookup_insert_eq|apply undeclared_nil].
      eexists. split_and!; [done..|]. intros st' top' H'. simpl.
      rewrite H in H'. apply app_inj_tail in H' as [<- <-].
      by rewrite insert_insert_eq.
  - intros r st1 s st2 top info H Hs Hd Hu. walk.
    rewrite resolveVariableExpr_read by congruence.
    rewrite (resolveIdent_at rd read r st1 s (st2 ++ [top]) info);
      [|done|by rewrite He..].
    rewrite Hd. walk. cbn [negb andb].
    assert (top !! token.Lexeme name = None) as Htop.
    { apply undeclared_app in Hu as [_ Hu]. by apply undeclared_singleton. }
    rewrite (declareIdent_fresh name _
               (st1 ++ <[token.Lexeme rd := used info]> s :: st2) top);
      [|by rewrite <- app_assoc|done..].
    walk.
    rewrite (defineIdent_at name _
               (st1 ++ <[token.Lexeme rd := used info]> s :: st2)
               (<[token.Lexeme name := mkIdentInfo false false name]> top) []
               (mkIdentInfo false false name));
      [|done|by rewrite lookup_insert_eq|apply undeclared_nil].
    simpl. rewrite insert_insert_eq, <- app_assoc, length_app. simpl.
    unfold used, defined. rewrite He, Hd. simpl.
    by replace (length st2 + 1) with (S (length st2)) by lia.
  - walk. rewrite resolveVariableExpr_read by congruence. reflexivity.
Qed.

Lemma initialiser_before_declaration_witness :
  resolve codeOrder
    (mkProgram [VarDecl (tokenAt 1 4 "x")
                  (Some (VariableExpr (tokenAt 1 8 "x")))]) =
    Ok (Some ∅, None).
Proof.
  apply (initialiser_before_declaration codeOrder
           (tokenAt 1 4 "x") (tokenAt 1 8 "x")).
  - reflexivity.
  - discriminate.
Defined.

(** ** Function declarations *)

(** C7, as the code has it: a function declaration declares and defines its
    name, then pushes a scope, declares and defines each parameter, walks the
    body and pops the scope.  So [fun f() { f(); }] yields no diagnostic:
    inside a block the call's [f] resolves to the function's binding, one
    scope up; at the top level, where no scope is on the stack, the name is
    neither declared nor found, the call gets no distance and is left to the
    lookup by name. *)
Theorem function_self_reference ro f f' :
  token.Lexeme f' = token.Lexeme f →
  token.Lexeme f ≠ token.BlankIdent →
  (∀ params body r,
     resolveStmt ro (FunDecl f params body) r =
       (r1 <- declareIdent f r;;
        r2 <- defineIdent f r1;;
        r3 <- forEach
                (λ param r', r'' <- declareIdent param r';;
                             defineIdent param r'')
                params (beginScope r2);;
        r4 <- forEach (resolveStmt ro) body r3;;
        endScope ro r4)) ∧
  resolve ro
    (mkProgram [FunDecl f [] [ExprStmt (CallExpr (VariableExpr f') [])]]) =
    Ok (Some ∅, None) ∧
  resolve ro
    (mkProgram
       [BlockStmt
          [FunDecl f [] [ExprStmt (CallExpr (VariableExpr f') [])]]]) =
    Ok (Some {[ f' := 1 ]}, None).
Proof.
  intros He Hb. split_and!.
  - done.
  - walk. rewrite declareIdent_global by done. walk.
    rewrite defineIdent_undeclared by apply undeclared_nil. walk.
    rewrite resolveVariableExpr_read by congruence.
    rewrite resolveIdent_undeclared
      by apply undeclared_singleton, lookup_empty.
    walk.
    by rewrite (endScope_none ro _ [] ∅) by (done || apply unusedOf_empty).
  - walk.
    rewrite (declareIdent_fresh f _ [] ∅) by (done || apply lookup_empty).
    walk.
    rewrite (defineIdent_at f _ []
               {[ token.Lexeme f := mkIdentInfo false false f ]} []
               (mkIdentInfo false false f));
      [|done|by rewrite lookup_singleton_eq|apply undeclared_nil].
    walk. rewrite resolveVariableExpr_read by congruence.
    rewrite (resolveIdent_at f' read _ []
               (<[token.Lexeme f := defined (mkIdentInfo false false f)]>
                  {[ token.Lexeme f := mkIdentInfo false false f ]}) [∅]
               (defined (mkIdentInfo false false f)));
      [|done|by rewrite He, lookup_insert_eq|].
    2:{ apply undeclared_singleton, lookup_empty. }
    walk. cbn [negb andb Defined defined].
    rewrite (endScope_none ro _
               [<[token.Lexeme f' := used (defined (mkIdentInfo false false f))]>
                  (<[token.Lexeme f := defined (mkIdentInfo false false f)]>
                     {[ token.Lexeme f := mkIdentInfo false false f ]})] ∅)
      by (done || apply unusedOf_empty).
    walk.
    erewrite (endScope_none ro _ []); [done|done|].
    rewrite He, insert_insert_eq. by rewrite unusedOf_insert_singleton.
Qed.

Lemma function_self_reference_witness :
  resolve codeOrder
    (mkProgram [FunDecl (tokenAt 1 4 "f") []
                  [ExprStmt (CallExpr (VariableExpr (tokenAt 1 10 "f")) [])]]) =
    Ok (Some ∅, None) ∧
  resolve codeOrder
    (mkProgram
       [BlockStmt
          [FunDecl (tokenAt 1 6 "f") []
             [ExprStmt (CallExpr (VariableExpr (tokenAt 1 12 "f")) [])]]]) =
    Ok (Some {[ tokenAt 1 12 "f" := 1 ]}, None).
Proof.
  split.
  - apply (function_self_reference codeOrder
             (tokenAt 1 4 "f") (tokenAt 1 10 "f")).
    + reflexivity.
    + discriminate.
  - apply (function_self_reference codeOrder
             (tokenAt 1 6 "f") (tokenAt 1 12 "f")).
    + reflexivity.
    + discriminate.
Defined.

(** C7 as stated fails in its last part: in the program [fun f() { f(); }]
    the call to [f] is not resolved; the map [resolve] returns is empty and
    holds no distance for the call's token. *)
Lemma function_self_reference_counterexample :
  ∃ m, resolve codeOrder
         (mkProgram [FunDecl (tokenAt 1 4 "f") []
                       [ExprStmt
                          (CallExpr (VariableExpr (tokenAt 1 10 "f")) [])]]) =
         Ok (Some m, None) ∧
    m !! tokenAt 1 10 "f" = None.
Proof. eexists. split; [vm_compute; reflexivity|reflexivity]. Qed.

(** ** Distances along a chain of blocks *)

Lemma innermost_lookups lex st st' i info :
  lookups lex st' = lookups lex st →
  innermost lex st i info → innermost lex st' i info.
Proof. unfold innermost. by intros ->. Qed.

Lemma innermost_lt lex st i info : innermost lex st i info → i < length st.
Proof.
  intros [H _]. apply lookup_lt_Some in H. by rewrite lookups_length in H.
Qed.

Lemma innermost_push lex st (top : scope) i info :
  top !! lex = None →
  innermost lex st i info → innermost lex (st ++ [top]) i info.
Proof.
  intros Htop H. pose proof (innermost_lt _ _ _ _ H) as Hlt.
  destruct H as [Hi Hk]. split; rewrite lookups_app.
  - by apply lookup_app_l_Some.
  - intros k o Hik Ho. apply lookup_app_Some in Ho as [Ho|[_ Ho]]; [eauto|].
    simpl in Ho. apply list_lookup_singleton_Some in Ho as [_ <-]. done.
Qed.

Lemma Declare_other tok lex :
  token.Lexeme tok ≠ lex → Declare_ tok ∅ !! lex = None.
Proof.
  intros H. unfold Declare_. case_decide; [apply lookup_empty|].
  by rewrite lookup_insert_ne.
Qed.

(** [defineIdent] never panics, and touches the binding of its lexeme only. *)
Lemma defineIdent_frame tok r :
  ∃ r', defineIdent tok r = Ok r' ∧
    declDistancesByTok r' = declDistancesByTok r ∧
    errs r' = errs r ∧
    length (scopes r') = length (scopes r) ∧
    ∀ lex, lex ≠ token.Lexeme tok →
      lookups lex (scopes r') = lookups lex (scopes r).
Proof.
  destruct (innermost_or_undeclared (token.Lexeme tok) (scopes r))
    as [H|(i & info & H)].
  - exists r. by rewrite defineIdent_undeclared.
  - pose proof H as (s & Hs & Hinfo & _)%innermost_scope.
    eexists. rewrite (defineIdent_innermost _ _ i s info) by done.
    split_and!; [done..|apply length_insert|].
    intros lex Hne. simpl. apply (lookups_insert _ _ _ s); [done|].
    by rewrite lookup_insert_ne.
Qed.

Lemma chainBody_distance ro x rd inner :
  token.Lexeme rd = x → x ≠ token.BlankIdent →
  Forall (λ d, token.Lexeme d ≠ x) inner →
  ∀ r j info,
    innermost x (scopes r) j info → Defined info = true →
    ∃ r', forEach (resolveStmt ro) (chainBody inner rd) r = Ok r' ∧
      declDistancesByTok r' =
        <[rd := length (scopes r) + length inner - 1 - j]>
          (declDistancesByTok r) ∧
      length (scopes r') = length (scopes r).
Proof.
  intros Hrd Hb. induction 1 as [|d inner Hd _ IH]; intros r j info Hj Hdef.
  - pose proof Hj as (s & Hs & _)%innermost_scope. simpl. walk.
    rewrite resolveVariableExpr_read by congruence.
    rewrite (resolveIdent_innermost rd read r j s info) by (by rewrite ?Hrd).
    unfold resolvedAt. rewrite Hdef. simpl. eexists. split_and!; [done| |].
    + simpl. by rewrite Nat.add_0_r.
    + simpl. apply length_insert.
  - pose proof (innermost_lt _ _ _ _ Hj) as Hlt. simpl. walk.
    rewrite (declareIdent_top d _ (scopes r) ∅) by done.
    rewrite IsDeclared_None by apply lookup_empty. walk.
    destruct (defineIdent_frame d
                (setScopes (scopes r ++ [Declare_ d ∅]) (beginScope r)))
      as (r2 & -> & Hdd2 & He2 & Hlen2 & Hlk2).
    walk. simpl in Hdd2, He2, Hlen2, Hlk2.
    rewrite length_app in Hlen2. simpl in Hlen2.
    destruct (IH r2 j info) as (r3 & -> & Hdd3 & Hlen3); [|done|].
    { apply (innermost_lookups _ (scopes r ++ [Declare_ d ∅])); [by apply Hlk2|].
      apply innermost_push; [|done]. by apply Declare_other. }
    walk.
    destruct (stack_nonempty (scopes r3)) as (st & top & H3); [lia|].
    rewrite (endScope_Push ro r3 st top H3). walk.
    eexists. split_and!; [done| |].
    + simpl. rewrite Hdd3, Hdd2, Hlen2. f_equal. lia.
    + simpl. rewrite H3, length_app in Hlen3. simpl in Hlen3. lia.
Qed.

(** C1, as the code has it: for a chain of N nested blocks, each declaring one
    variable with an initialiser, where the innermost block reads the variable
    of the outermost block and no block between redeclares its name, the
    distance recorded for that read is N - 1: the distance counts the scopes
    above the innermost one, which is at distance 0. *)
Theorem chain_distance ro outer inner rd :
  token.Lexeme rd = token.Lexeme outer →
  token.Lexeme outer ≠ token.BlankIdent →
  Forall (λ d, token.Lexeme d ≠ token.Lexeme outer) inner →
  ∃ r', resolveProgram ro (mkProgram [chain outer inner rd]) newResolver
          = Ok r' ∧
    declDistancesByTok r' = {[ rd := length (outer :: inner) - 1 ]}.
Proof.
  intros Hrd Hb Hinner. unfold chain. walk.
  rewrite (declareIdent_fresh outer _ [] ∅) by (done || apply lookup_empty).
  walk.
  rewrite (defineIdent_at outer _ []
             {[ token.Lexeme outer := mkIdentInfo false false outer ]} []
             (mkIdentInfo false false outer));
    [|done|by rewrite lookup_singleton_eq|apply undeclared_nil].
  walk.
  edestruct (chainBody_distance ro (token.Lexeme outer) rd inner Hrd Hb Hinner)
    as (r1 & -> & Hdd1 & Hlen1).
  { apply (innermost_middle _ [] _ []); [|apply undeclared_nil].
    simpl. apply lookup_insert_eq. }
  { done. }
  walk. simpl in Hdd1, Hlen1.
  destruct (stack_nonempty (scopes r1)) as (st & top & H1); [lia|].
  rewrite (endScope_Push ro r1 st top H1). walk.
  eexists. split; [done|]. simpl. rewrite Hdd1, insert_empty.
  f_equal. lia.
Qed.

Lemma chain_distance_witness :
  ∃ r', resolveProgram codeOrder
          (mkProgram [chain (tokenAt 1 6 "a")
                        [tokenAt 2 8 "b"; tokenAt 3 10 "c"]
                        (tokenAt 4 12 "a")]) newResolver = Ok r' ∧
    declDistancesByTok r' = {[ tokenAt 4 12 "a" := 2 ]}.
Proof.
  apply (chain_distance codeOrder (tokenAt 1 6 "a")
           [tokenAt 2 8 "b"; tokenAt 3 10 "c"] (tokenAt 4 12 "a")).
  - reflexivity.
  - discriminate.
  - repeat constructor; discriminate.
Defined.

(** C1 as stated fails: in [{ var a = 0; { var b = 0; print a; } }], a chain
    of 2 blocks, the distance recorded for the read of [a] is 1, not 2. *)
Lemma chain_distance_counterexample :
  ∃ r', resolveProgram codeOrder
          (mkProgram [chain (tokenAt 1 6 "a") [tokenAt 1 19 "b"]
                        (tokenAt 1 32 "a")]) newResolver = Ok r' ∧
    declDistancesByTok r' !! tokenAt 1 32 "a" = Some 1 ∧
    declDistancesByTok r' !! tokenAt 1 32 "a"
      ≠ Some (length [tokenAt 1 6 "a"; tokenAt 1 19 "b"]).
Proof.
  eexists. split; [vm_compute; reflexivity|].
  split; [vm_compute; reflexivity|]. vm_compute. discriminate.
Qed.

(** * Further properties of the code *)

(** ** The stack *)

(** X1: [Pop] undoes [Push] and nothing else: [Pop] returns the value [v] and
    the stack [s'] exactly when the stack was [s'] with [v] pushed; [Peek]
    returns [v] exactly when [v] was pushed last; a push makes the stack one
    longer. *)
Theorem stack_pop_push {T : Type} (s s' : stack T) (v : T) :
  (Pop s = Ok (v, s') ↔ s = Push v s') ∧
  (Peek s = Ok v ↔ ∃ s0, s = Push v s0) ∧
  Len (Push v s) = Len s + 1.
Proof.
  split_and!.
  - split; [|intros ->; apply Pop_Push].
    intros H. destruct (stack_cases s) as [->|(s0 & v0 & ->)]; [done|].
    rewrite Pop_Push in H. by simplify_eq.
  - split; [|intros [s0 ->]; apply Peek_Push].
    intros H. destruct (stack_cases s) as [->|(s0 & v0 & ->)]; [done|].
    rewrite Peek_Push in H. simplify_eq. by exists s0.
  - unfold Len, Push. rewrite length_app. simpl. lia.
Qed.


(** ** Scopes *)

(** X3: [Declare_] with a token that is not the blank identifier binds its
    lexeme to a fresh record, not defined, not used, with that token, whatever
    the scope held for it, and leaves every other lexeme alone; with the blank
    identifier it leaves the scope as it is. *)
Theorem Declare_binds tok (s : scope) :
  (token.Lexeme tok ≠ token.BlankIdent →
     Declare_ tok s !! token.Lexeme tok = Some (mkIdentInfo false false tok) ∧
     IsDeclared tok (Declare_ tok s) = true ∧
     IsDefined tok (Declare_ tok s) = Ok false ∧
     ∀ lex, lex ≠ token.Lexeme tok → Declare_ tok s !! lex = s !! lex) ∧
  (token.Lexeme tok = token.BlankIdent → Declare_ tok s = s).
Proof.
  unfold Declare_. split.
  - intros Hb. rewrite decide_False by done.
    unfold IsDeclared, IsDefined. rewrite lookup_insert_eq.
    split_and!; [done..|]. intros lex Hne. by rewrite lookup_insert_ne.
  - intros Hb. by rewrite decide_True.
Qed.

(** X4: [Define], [Use] and [IsDefined] dereference the nil pointer, and so
    panic, exactly when the scope does not declare the token's lexeme. *)
Theorem scope_nil_dereference tok (s : scope) :
  (IsDeclared tok s = false ↔ Define tok s = Panic "nil pointer dereference") ∧
  (IsDeclared tok s = false ↔ Use tok s = Panic "nil pointer dereference") ∧
  (IsDeclared tok s = false ↔
     IsDefined tok s = Panic "nil pointer dereference").
Proof.
  unfold IsDeclared, Define, Use, IsDefined.
  destruct (s !! token.Lexeme tok); by split_and!.
Qed.

(** X5: on a declared lexeme [Define] and [Use] succeed; after [Define] the
    binding is defined; [Use] does not change whether it is defined; the two
    commute, each is idempotent, and neither changes which lexemes the scope
    declares. *)
Theorem scope_define_use tok (s : scope) :
  IsDeclared tok s = true →
  (s1 <- Define tok s;; IsDefined tok s1) = Ok true ∧
  (s1 <- Use tok s;; IsDefined tok s1) = IsDefined tok s ∧
  (s1 <- Define tok s;; Use tok s1) = (s1 <- Use tok s;; Define tok s1) ∧
  (s1 <- Define tok s;; Define tok s1) = Define tok s ∧
  (s1 <- Use tok s;; Use tok s1) = Use tok s ∧
  (∀ s1 t, Define tok s = Ok s1 ∨ Use tok s = Ok s1 →
     IsDeclared t s1 = IsDeclared t s).
Proof.
  unfold IsDeclared. destruct (s !! token.Lexeme tok) as [info|] eqn:E; [|done].
  intros _. rewrite (Define_Some _ _ info), (Use_Some _ _ info) by done.
  simpl. unfold Define, Use, IsDefined. rewrite !lookup_insert_eq.
  split_and!; [done| |by rewrite !insert_insert_eq..|].
  - by rewrite E.
  - intros s1 t [H|H]; simplify_eq;
      (destruct (decide (token.Lexeme tok = token.Lexeme t)) as [<-|Hne];
       [by rewrite lookup_insert_eq, E|by rewrite lookup_insert_ne]).
Qed.

Lemma scope_define_use_witness :
  (s1 <- Define (tokenAt 2 0 "x")
           {[ "x" := mkIdentInfo false false (tokenAt 1 4 "x") ]};;
   IsDefined (tokenAt 2 0 "x") s1) = Ok true.
Proof.
  apply (scope_define_use (tokenAt 2 0 "x")
           {[ "x" := mkIdentInfo false false (tokenAt 1 4 "x") ]}).
  reflexivity.
Defined.

(** X6: whatever the order of the range, [UnusedIdents] returns exactly the
    tokens of the bindings that are not used: a token is in the result if and
    only if some lexeme of the scope is bound to an unused record with that
    token; and the result is empty exactly when every binding is used. *)
Theorem UnusedIdents_unused ro r (s : scope) tok :
  (tok ∈ UnusedIdents (entriesOf ro r) s ↔
     ∃ lex info, s !! lex = Some info ∧ Used info = false ∧ Token info = tok) ∧
  (UnusedIdents (entriesOf ro r) s = [] ↔
     ∀ lex info, s !! lex = Some info → Used info = true).
Proof.
  assert (∀ t, t ∈ UnusedIdents (entriesOf ro r) s ↔
     ∃ lex info, s !! lex = Some info ∧ Used info = false ∧ Token info = t)
    as Hin.
  { intros t. rewrite UnusedIdents_perm. unfold unusedOf.
    rewrite list_elem_of_fmap. split.
    - intros (info & -> & Hinfo). apply list_elem_of_filter in Hinfo as [Hu Hi].
      apply list_elem_of_fmap in Hi as ([lex info'] & -> & Hi).
      apply elem_of_map_to_list in Hi. by exists lex, info'.
    - intros (lex & info & Hs & Hu & <-). exists info. split; [done|].
      apply list_elem_of_filter. split; [done|].
      apply list_elem_of_fmap. exists (lex, info). split; [done|].
      by apply elem_of_map_to_list. }
  split; [apply Hin|]. split.
  - intros Hnil lex info Hs. destruct (Used info) eqn:Hu; [done|].
    assert (Token info ∈ UnusedIdents (entriesOf ro r) s) as Hel
      by (apply Hin; eauto).
    rewrite Hnil in Hel. by apply not_elem_of_nil in Hel.
  - intros Hall. destruct (UnusedIdents (entriesOf ro r) s) as [|t l] eqn:E;
      [done|].
    assert (t ∈ t :: l) as Hel by left.
    apply Hin in Hel as (lex & info & Hs & Hu & _).
    rewrite (Hall lex info Hs) in Hu. done.
Qed.

(** ** The error list *)

(** X7: [Err] is nil exactly for the empty list; after an [AddFromToken] it is
    never nil; and the error it returns holds as many errors as the list. *)
Theorem Err_nil_iff_empty (e : loxerror.LoxErrors) :
  (loxerror.Err e = None ↔ e = []) ∧
  (∀ tok msg, loxerror.Err (loxerror.AddFromToken tok msg e) ≠ None) ∧
  (∀ ds, loxerror.Err e = Some ds → length ds = length e).
Proof.
  split_and!.
  - destruct e; [done|]. by rewrite Err_cons.
  - intros tok msg. unfold loxerror.AddFromToken, loxerror.Add.
    destruct e; simpl; by rewrite Err_cons.
  - intros ds. destruct e as [|d e]; [done|]. rewrite Err_cons.
    intros [= <-]. by rewrite SortFunc_perm.
Qed.

(** X8: when no two different errors of the list start at positions that
    compare equal, the error [Err] returns does not depend on the order in
    which the errors were added. *)
Theorem Err_order_insensitive (e1 e2 : loxerror.LoxErrors) :
  e1 ≡ₚ e2 →
  (∀ a b, a ∈ e1 → b ∈ e1 →
     loxerror.before a b → loxerror.before b a → a = b) →
  loxerror.Err e1 = loxerror.Err e2.
Proof.
  intros Hp Hties. destruct e1 as [|d1 e1], e2 as [|d2 e2]; [done| | |].
  - by apply Permutation_nil_cons in Hp.
  - symmetry in Hp. by apply Permutation_nil_cons in Hp.
  - rewrite !Err_cons. f_equal.
    apply (StronglySorted_unique_strong loxerror.before).
    + intros a b Ha Hb. apply Hties.
      * by rewrite SortFunc_perm in Ha.
      * by rewrite SortFunc_perm, <- Hp in Hb.
    + apply SortFunc_sorted.
    + apply SortFunc_sorted.
    + by rewrite !SortFunc_perm.
Qed.

Lemma Err_order_insensitive_witness :
  loxerror.Err [unusedDiag (tokenAt 2 4 "y"); unusedDiag (tokenAt 1 4 "x")] =
  loxerror.Err [unusedDiag (tokenAt 1 4 "x"); unusedDiag (tokenAt 2 4 "y")].
Proof.
  apply Err_order_insensitive.
  - apply Permutation_swap.
  - intros a b Ha Hb H1 H2.
    apply elem_of_cons in Ha as [->|Ha]; [|apply list_elem_of_singleton in Ha as ->];
    (apply elem_of_cons in Hb as [->|Hb];
     [|apply list_elem_of_singleton in Hb as ->]);
    try reflexivity; exfalso; vm_compute in H1, H2; auto.
Defined.

(** ** What the three operations can do *)

Lemma declareIdent_cases tok r :
  (scopes r = [] ∧ declareIdent tok r = Ok r) ∨
  ∃ st (s : scope), scopes r = st ++ [s] ∧
    ((is_Some (s !! token.Lexeme tok) ∧
      declareIdent tok r =
        Ok (mkResolver (scopes r) (declDistancesByTok r)
              (errs r ++ [redeclaredDiag tok]))) ∨
     (s !! token.Lexeme tok = None ∧
      declareIdent tok r = Ok (setScopes (st ++ [Declare_ tok s]) r))).
Proof.
  destruct (stack_cases (scopes r)) as [H|(st & s & H)].
  - left. by rewrite declareIdent_global.
  - right. exists st, s. split; [done|].
    rewrite (declareIdent_top tok r st s H). unfold IsDeclared.
    destruct (s !! token.Lexeme tok) eqn:E; [left|right]; eauto.
Qed.

Lemma defineIdent_cases tok r :
  (undeclared (token.Lexeme tok) (scopes r) ∧ defineIdent tok r = Ok r) ∨
  ∃ i (s : scope) info,
    scopes r !! i = Some s ∧ s !! token.Lexeme tok = Some info ∧
    innermost (token.Lexeme tok) (scopes r) i info ∧
    defineIdent tok r =
      Ok (storeScope i (<[token.Lexeme tok := defined info]> s) r).
Proof.
  destruct (innermost_or_undeclared (token.Lexeme tok) (scopes r))
    as [H|(i & info & H)].
  - left. by rewrite defineIdent_undeclared.
  - right. pose proof H as (s & Hs & Hinfo & _)%innermost_scope.
    exists i, s, info. by rewrite (defineIdent_innermost _ _ i s info).
Qed.

Lemma resolveIdent_cases tok op r :
  (undeclared (token.Lexeme tok) (scopes r) ∧ resolveIdent tok op r = Ok r) ∨
  ∃ i (s : scope) info,
    scopes r !! i = Some s ∧ s !! token.Lexeme tok = Some info ∧
    innermost (token.Lexeme tok) (scopes r) i info ∧
    resolveIdent tok op r = Ok (resolvedAt tok op i s info r).
Proof.
  destruct (innermost_or_undeclared (token.Lexeme tok) (scopes r))
    as [H|(i & info & H)].
  - left. by rewrite resolveIdent_undeclared.
  - right. pose proof H as (s & Hs & Hinfo & _)%innermost_scope.
    exists i, s, info. by rewrite (resolveIdent_innermost _ _ _ i s info).
Qed.

Lemma innermost_update lex st i (s : scope) info info' :
  st !! i = Some s → innermost lex st i info →
  innermost lex (<[i := <[lex := info']> s]> st) i info'.
Proof.
  intros Hs H. pose proof (innermost_lt _ _ _ _ H) as Hlt.
  destruct H as [_ Hk]. split.
  - rewrite lookups_lookup, list_lookup_insert_eq by done. simpl.
    by rewrite lookup_insert_eq.
  - intros k o Hik Ho. apply (Hk k); [done|].
    rewrite lookups_lookup in Ho |- *.
    by rewrite list_lookup_insert_ne in Ho by lia.
Qed.

(** ** Bindings only gain flags *)

Lemma bindingLe_refl a : bindingLe a a.
Proof. by split_and!. Qed.

Lemma bindingLe_trans a b c : bindingLe a b → bindingLe b c → bindingLe a c.
Proof.
  intros (Ht & Hd & Hu) (Ht' & Hd' & Hu'). split_and!; [congruence|auto..].
Qed.

Lemma scopeLe_refl s : scopeLe s s.
Proof. intros lex a Ha. exists a. split; [done|apply bindingLe_refl]. Qed.

Lemma scopeLe_trans s1 s2 s3 : scopeLe s1 s2 → scopeLe s2 s3 → scopeLe s1 s3.
Proof.
  intros H12 H23 lex a Ha. destruct (H12 lex a Ha) as (b & Hb & Hab).
  destruct (H23 lex b Hb) as (c & Hc & Hbc). exists c. split; [done|].
  by apply (bindingLe_trans a b c).
Qed.

Lemma scopeLe_insert (s : scope) lex b :
  (∀ a, s !! lex = Some a → bindingLe a b) → scopeLe s (<[lex := b]> s).
Proof.
  intros H lex' a Ha. destruct (decide (lex = lex')) as [<-|Hne].
  - exists b. rewrite lookup_insert_eq. auto.
  - exists a. rewrite lookup_insert_ne by done. split; [done|].
    apply bindingLe_refl.
Qed.

Global Instance scopeLe_preorder : PreOrder scopeLe.
Proof.
  split; [intros s; apply scopeLe_refl|intros s1 s2 s3; apply scopeLe_trans].
Qed.

Lemma stackLe_refl st : Forall2 scopeLe st st.
Proof. reflexivity. Qed.

Lemma stackLe_trans st1 st2 st3 :
  Forall2 scopeLe st1 st2 → Forall2 scopeLe st2 st3 → Forall2 scopeLe st1 st3.
Proof. intros H12 H23. by etrans. Qed.

Lemma stackLe_insert st i (s s' : scope) :
  st !! i = Some s → scopeLe s s' → Forall2 scopeLe st (<[i := s']> st).
Proof.
  intros Hs Hle. rewrite <- (list_insert_id st i s Hs) at 1.
  apply Forall2_insert; [apply stackLe_refl|done].
Qed.

(** ** Relations every walk keeps

    A reflexive and transitive relation between states that the three
    operations, the blank-identifier diagnostic and every bracket of
    [beginScope] and its [endScope] keep, is kept by the walk of every
    statement and expression. *)

Section respects_walk.
Variable R : resolver → resolver → Prop.
Hypothesis R_refl : ∀ r, R r r.
Hypothesis R_trans : ∀ r1 r2 r3, R r1 r2 → R r2 r3 → R r1 r3.
Hypothesis R_declareIdent : ∀ tok, respects R (declareIdent tok).
Hypothesis R_defineIdent : ∀ tok, respects R (defineIdent tok).
Hypothesis R_resolveIdent : ∀ tok op, respects R (resolveIdent tok op).
Hypothesis R_blank : ∀ tok r,
  R r (mkResolver (scopes r) (declDistancesByTok r)
         (errs r ++ [blankDiag tok])).
Hypothesis R_scope : ∀ ro r r1 r2,
  R (beginScope r) r1 → endScope ro r1 = Ok r2 → R r r2.
Variable ro : rangeOrder.

Lemma respects_ret : respects R Ok.
Proof. intros r r' [= <-]. apply R_refl. Qed.

Lemma respects_bind (f g : resolver → result resolver) :
  respects R f → respects R g → respects R (λ r, bind (f r) g).
Proof.
  intros Hf Hg r r' H. destruct (f r) as [r1|] eqn:E; [|done]. simpl in H.
  apply (R_trans r r1 r'); auto.
Qed.

Lemma respects_ext (f g : resolver → result resolver) :
  (∀ r, f r = g r) → respects R f → respects R g.
Proof. intros H Hf r r' Hg. apply Hf. by rewrite H. Qed.

Lemma respects_forEach {A : Type} (f : A → resolver → result resolver) xs :
  list_all A (λ x, respects R (f x)) xs → respects R (forEach f xs).
Proof.
  induction 1 as [|x Hx xs _ IH]; simpl.
  - apply respects_ret.
  - by apply (respects_bind (f x)).
Qed.

Lemma respects_forEach_all {A : Type} (f : A → resolver → result resolver) xs :
  (∀ x, respects R (f x)) → respects R (forEach f xs).
Proof.
  intros H. apply respects_forEach. induction xs; constructor; auto.
Qed.

Lemma respects_ifNotNil {A : Type} (f : A → resolver → result resolver) x :
  option_all A (λ x, respects R (f x)) x → respects R (ifNotNil f x).
Proof. destruct 1; simpl; [done|apply respects_ret]. Qed.

Lemma respects_scope (f : resolver → result resolver) :
  respects R f → respects R (λ r, bind (f (beginScope r)) (endScope ro)).
Proof.
  intros Hf r r' H. destruct (f (beginScope r)) as [r1|] eqn:E; [|done].
  simpl in H. apply (R_scope ro r r1 r'); auto.
Qed.

Lemma respects_resolveFun (resolveStmt' : Stmt → resolver → result resolver)
    params body :
  list_all Stmt (λ s, respects R (resolveStmt' s)) body →
  respects R (resolveFun ro resolveStmt' params body).
Proof.
  intros Hbody.
  set (declare_define :=
    forEach (λ param r', r'' <- declareIdent param r';; defineIdent param r'')
      params).
  apply (respects_ext
    (λ r, bind (bind (declare_define (beginScope r))
                  (forEach resolveStmt' body)) (endScope ro))).
  { intros r. by rewrite bind_assoc. }
  apply (respects_scope
    (λ r, bind (declare_define r) (forEach resolveStmt' body))).
  apply (respects_bind declare_define).
  - apply respects_forEach_all. intros param.
    by apply (respects_bind (declareIdent param)).
  - by apply respects_forEach.
Qed.

Lemma respects_resolveForStmt
    (resolveStmt' : Stmt → resolver → result resolver)
    (resolveExpr' : Expr → resolver → result resolver)
    init cond update body :
  option_all Stmt (λ s, respects R (resolveStmt' s)) init →
  option_all Expr (λ e, respects R (resolveExpr' e)) cond →
  option_all Expr (λ e, respects R (resolveExpr' e)) update →
  respects R (resolveStmt' body) →
  respects R (resolveForStmt ro resolveStmt' resolveExpr' init cond update body).
Proof.
  intros Hinit Hcond Hupdate Hbody.
  set (inner := λ r : resolver,
    bind (ifNotNil resolveStmt' init r) (λ r1,
    bind (ifNotNil resolveExpr' cond r1) (λ r2,
    bind (ifNotNil resolveExpr' update r2) (resolveStmt' body)))).
  apply (respects_ext (λ r, bind (inner (beginScope r)) (endScope ro))).
  { intros r. unfold inner, resolveForStmt.
    destruct (ifNotNil resolveStmt' init (beginScope r)) as [r1|]; [|done].
    simpl. destruct (ifNotNil resolveExpr' cond r1) as [r2|]; [|done].
    simpl. by destruct (ifNotNil resolveExpr' update r2). }
  apply respects_scope. unfold inner.
  apply (respects_bind (ifNotNil resolveStmt' init));
    [by apply respects_ifNotNil|].
  apply (respects_bind (ifNotNil resolveExpr' cond));
    [by apply respects_ifNotNil|].
  apply (respects_bind (ifNotNil resolveExpr' update));
    [by apply respects_ifNotNil|].
  done.
Qed.

Lemma respects_resolveVariableExpr tok : respects R (resolveVariableExpr tok).
Proof.
  unfold resolveVariableExpr. case_decide; [|apply R_resolveIdent].
  intros r r' [= <-]. apply R_blank.
Qed.

Lemma walk_respects :
  (∀ s, respects R (resolveStmt ro s)) ∧ (∀ e, respects R (resolveExpr ro e)).
Proof.
  apply Stmt_Expr_ind.
  - intros n i Hi. destruct Hi as [e He|]; [|apply R_declareIdent].
    apply (respects_bind (resolveExpr ro e)); [done|].
    by apply (respects_bind (declareIdent n)).
  - intros n ps b Hb.
    apply (respects_bind (declareIdent n)); [done|].
    apply (respects_bind (defineIdent n)); [done|].
    by apply respects_resolveFun.
  - intros e He. exact He.
  - intros e He. exact He.
  - intros ss Hss.
    apply (respects_scope (forEach (resolveStmt ro) ss)).
    by apply respects_forEach.
  - intros c Hc t Ht e He.
    apply (respects_bind (resolveExpr ro c)); [done|].
    apply (respects_bind (resolveStmt ro t)); [done|].
    by apply respects_ifNotNil.
  - intros c Hc b Hb. by apply (respects_bind (resolveExpr ro c)).
  - intros i Hi c Hc u Hu b Hb. by apply respects_resolveForStmt.
  - apply respects_ret.
  - apply respects_ret.
  - intros v Hv. by apply respects_ifNotNil.
  - intros ps b Hb. by apply respects_resolveFun.
  - intros e He. exact He.
  - apply respects_ret.
  - intros n. apply respects_resolveVariableExpr.
  - intros c Hc args Hargs.
    apply (respects_bind (resolveExpr ro c)); [done|].
    by apply respects_forEach.
  - intros e He. exact He.
  - intros l Hl r Hr. by apply (respects_bind (resolveExpr ro l)).
  - intros c Hc t Ht e He.
    apply (respects_bind (resolveExpr ro c)); [done|].
    by apply (respects_bind (resolveExpr ro t)).
  - intros l r Hr.
    apply (respects_bind (resolveExpr ro r)); [done|].
    by apply (respects_bind (resolveIdent l write)).
Qed.

Lemma resolveProgram_respects program :
  respects R (resolveProgram ro program).
Proof.
  apply respects_forEach.
  induction (Stmts program); constructor; [apply walk_respects|done].
Qed.

End respects_walk.

(** ** Walks never panic *)

(** X9: the walk of any statement or expression, from any state, returns
    without a panic and leaves the stack exactly as deep as it found it; so
    no [Pop] of the walk meets an empty stack and no [Define], [Use] or
    [IsDefined] a missing key; a whole program, from the fresh resolver, ends
    with the empty stack and [resolve] returns. *)
Theorem walk_never_panics ro :
  (∀ s r, ∃ r', resolveStmt ro s r = Ok r' ∧
     length (scopes r') = length (scopes r)) ∧
  (∀ e r, ∃ r', resolveExpr ro e r = Ok r' ∧
     length (scopes r') = length (scopes r)) ∧
  (∀ program, ∃ r' res,
     resolveProgram ro program newResolver = Ok r' ∧ scopes r' = [] ∧
     resolve ro program = Ok res).
Proof.
  split_and!.
  - intros s r. destruct (resolveStmt_total ro s r) as (r' & ? & ? & _).
    by exists r'.
  - intros e r. destruct (resolveExpr_total ro e r) as (r' & ? & ? & _).
    by exists r'.
  - intros program.
    destruct (resolveProgram_total ro program newResolver) as (r' & Hr' & Hlen).
    exists r'. unfold resolve, Resolve. rewrite Hr'. simpl.
    destruct (loxerror.Err (errs r')); eexists; (split_and!; [done| |done]);
      by apply length_zero_iff_nil.
Qed.

(** ** Walks only add *)

Lemma endScope_cases ro r r' :
  endScope ro r = Ok r' →
  ∃ st (s : scope), scopes r = st ++ [s] ∧
    r' = mkResolver st (declDistancesByTok r)
           (errs r ++ (unusedDiag <$> UnusedIdents (entriesOf ro r) s)).
Proof.
  intros H. destruct (stack_cases (scopes r)) as [Hs|(st & s & Hs)].
  - unfold endScope, Pop in H. by rewrite Hs in H.
  - rewrite (endScope_Push ro r st s Hs) in H. simplify_eq. eauto.
Qed.

(** The diagnostics of [r] are the first diagnostics of [r'], and every token
    with a distance in [r] has one in [r']. *)
Lemma only_adds_walk ro :
  let R := λ r r' : resolver,
    errs r `prefix_of` errs r' ∧
    dom (declDistancesByTok r) ⊆ dom (declDistancesByTok r') in
  (∀ s, respects R (resolveStmt ro s)) ∧ (∀ e, respects R (resolveExpr ro e)).
Proof.
  intros R. apply walk_respects; unfold R.
  - done.
  - intros r1 r2 r3 [H1 H1'] [H2 H2']. split; by etrans.
  - intros tok r r' H.
    destruct (declareIdent_cases tok r)
      as [[_ H']|(st & s & _ & [[_ H']|[_ H']])];
      rewrite H' in H; simplify_eq; simpl; split;
      first [done | by apply prefix_app_r].
  - intros tok r r' H.
    destruct (defineIdent_frame tok r) as (r1 & H' & Hdd & He & _).
    rewrite H' in H. simplify_eq. by rewrite Hdd, He.
  - intros tok op r r' H.
    destruct (resolveIdent_cases tok op r)
      as [[_ H']|(i & s & info & _ & _ & _ & H')];
      rewrite H' in H; simplify_eq; [done|].
    unfold resolvedAt. case_match; simpl; split;
      first [done | by apply prefix_app_r | set_solver].
  - intros tok r. simpl. split; [by apply prefix_app_r|done].
  - intros ro' r r1 r2 [He Hdd] H.
    apply endScope_cases in H as (st & s & _ & ->). simpl in *.
    split; [|done]. etrans; [done|]. by apply prefix_app_r.
Qed.

(** X10: a walk only adds: the diagnostics it found are, in their order, the
    first diagnostics it leaves, and every token that had a distance still has
    one. *)
Theorem walk_only_adds ro s r r' :
  resolveStmt ro s r = Ok r' →
  errs r `prefix_of` errs r' ∧
  dom (declDistancesByTok r) ⊆ dom (declDistancesByTok r').
Proof. apply (proj1 (only_adds_walk ro) s r r'). Qed.

Lemma walk_only_adds_witness :
  errs inBlockWithX `prefix_of`
    errs (mkResolver [{[ "x" := mkIdentInfo true true (tokenAt 1 6 "x") ]}]
            {[ tokenAt 1 15 "x" := 0 ]} []) ∧
  dom (declDistancesByTok inBlockWithX) ⊆
    dom (declDistancesByTok
           (mkResolver [{[ "x" := mkIdentInfo true true (tokenAt 1 6 "x") ]}]
              {[ tokenAt 1 15 "x" := 0 ]} [])).
Proof.
  apply (walk_only_adds codeOrder
           (PrintStmt (VariableExpr (tokenAt 1 15 "x"))) inBlockWithX).
  reflexivity.
Defined.

(** ** Bindings are never lost *)

Lemma scopeLe_Declare tok (s : scope) :
  s !! token.Lexeme tok = None → scopeLe s (Declare_ tok s).
Proof.
  intros H. unfold Declare_. case_decide; [apply scopeLe_refl|].
  apply scopeLe_insert. intros a Ha. by rewrite H in Ha.
Qed.

Lemma bindings_kept_walk ro :
  let R := λ r r' : resolver, Forall2 scopeLe (scopes r) (scopes r') in
  (∀ s, respects R (resolveStmt ro s)) ∧ (∀ e, respects R (resolveExpr ro e)).
Proof.
  intros R. apply walk_respects; unfold R.
  - intros r. apply stackLe_refl.
  - intros r1 r2 r3. apply stackLe_trans.
  - intros tok r r' H.
    destruct (declareIdent_cases tok r)
      as [[_ H']|(st & s & Hs & [[_ H']|[Hnone H']])];
      rewrite H' in H; simplify_eq; simpl; try apply stackLe_refl.
    rewrite Hs. apply Forall2_app; [apply stackLe_refl|].
    constructor; [by apply scopeLe_Declare|constructor].
  - intros tok r r' H.
    destruct (defineIdent_cases tok r)
      as [[_ H']|(i & s & info & Hs & Hinfo & _ & H')];
      rewrite H' in H; simplify_eq; [apply stackLe_refl|].
    simpl. apply (stackLe_insert _ _ s); [done|].
    apply scopeLe_insert. intros a Ha. rewrite Hinfo in Ha. simplify_eq.
    by split_and!.
  - intros tok op r r' H.
    destruct (resolveIdent_cases tok op r)
      as [[_ H']|(i & s & info & Hs & Hinfo & _ & H')];
      rewrite H' in H; simplify_eq; [apply stackLe_refl|].
    assert (Forall2 scopeLe (scopes r)
              (<[i := <[token.Lexeme tok := used info]> s]> (scopes r))) as Hle.
    { apply (stackLe_insert _ _ s); [done|].
      apply scopeLe_insert. intros a Ha. rewrite Hinfo in Ha. simplify_eq.
      by split_and!. }
    unfold resolvedAt. by case_match.
  - intros tok r. apply stackLe_refl.
  - intros ro' r r1 r2 Hle H.
    apply endScope_cases in H as (st & s & Hs & ->). simpl in *.
    unfold Push in Hle. rewrite Hs in Hle.
    apply Forall2_app_inv_l in Hle as (k1 & k2 & H1 & H2 & Hk).
    apply Forall2_length in H2. simpl in H2.
    destruct k2 as [|s2 [|??]]; simplify_eq/=.
    by apply app_inj_tail in Hk as [<- _].
Qed.

(** X11: a walk never loses a binding of a scope it found on the stack: after
    the walk of a statement the stack has the same scopes, each with every
    binding it had, under the same token (the first declaration stands), and
    with its flags still set if they were: [Defined] and [Used] never go
    back to false. *)
Theorem walk_keeps_bindings ro s r r' :
  resolveStmt ro s r = Ok r' →
  length (scopes r') = length (scopes r) ∧
  ∀ i (sc : scope) lex a,
    scopes r !! i = Some sc → sc !! lex = Some a →
    ∃ (sc' : scope) b, scopes r' !! i = Some sc' ∧ sc' !! lex = Some b ∧
      Token b = Token a ∧
      (Defined a = true → Defined b = true) ∧
      (Used a = true → Used b = true).
Proof.
  intros H. pose proof (proj1 (bindings_kept_walk ro) s r r' H) as Hle.
  simpl in Hle. split; [symmetry; by apply Forall2_length in Hle|].
  intros i sc lex a Hi Ha.
  destruct (Forall2_lookup_l _ _ _ _ _ Hle Hi) as (sc' & Hi' & Hsc).
  destruct (Hsc lex a Ha) as (b & Hb & Ht & Hd & Hu).
  exists sc', b. by split_and!.
Qed.

Lemma walk_keeps_bindings_witness :
  length [{[ "x" := mkIdentInfo true true (tokenAt 1 6 "x") ]} : scope] =
    length (scopes inBlockWithX) ∧
  ∀ i (sc : scope) lex a,
    scopes inBlockWithX !! i = Some sc → sc !! lex = Some a →
    ∃ (sc' : scope) b,
      [{[ "x" := mkIdentInfo true true (tokenAt 1 6 "x") ]}] !! i = Some sc' ∧
      sc' !! lex = Some b ∧ Token b = Token a ∧
      (Defined a = true → Defined b = true) ∧
      (Used a = true → Used b = true).
Proof.
  apply (walk_keeps_bindings codeOrder
           (PrintStmt (VariableExpr (tokenAt 1 15 "x"))) inBlockWithX
           (mkResolver [{[ "x" := mkIdentInfo true true (tokenAt 1 6 "x") ]}]
              {[ tokenAt 1 15 "x" := 0 ]} [])).
  reflexivity.
Defined.

(** ** The blank identifier gets no distance *)

Lemma blank_unrecorded_walk ro :
  let R := λ r r' : resolver,
    noBlank (scopes r) →
    noBlank (scopes r') ∧
    ∀ tok, token.Lexeme tok = token.BlankIdent →
      declDistancesByTok r' !! tok = declDistancesByTok r !! tok in
  (∀ s, respects R (resolveStmt ro s)) ∧ (∀ e, respects R (resolveExpr ro e)).
Proof.
  intros R. apply walk_respects; unfold R.
  - done.
  - intros r1 r2 r3 H12 H23 Hb. destruct (H12 Hb) as [Hb2 H2].
    destruct (H23 Hb2) as [Hb3 H3]. split; [done|].
    intros tok Ht. by rewrite H3, H2.
  - intros tok r r' H Hb. split.
    + by apply (stepOk_noBlank (declareIdent tok) r r' (stepOk_declareIdent tok)).
    + destruct (declareIdent_cases tok r)
        as [[_ H']|(st & s & _ & [[_ H']|[_ H']])];
        rewrite H' in H; by simplify_eq.
  - intros tok r r' H Hb. split.
    + by apply (stepOk_noBlank (defineIdent tok) r r' (stepOk_defineIdent tok)).
    + destruct (defineIdent_frame tok r) as (r1 & H' & Hdd & _).
      rewrite H' in H. simplify_eq. by rewrite Hdd.
  - intros tok op r r' H Hb. split.
    + by apply (stepOk_noBlank (resolveIdent tok op) r r'
                  (stepOk_resolveIdent tok op)).
    + destruct (resolveIdent_cases tok op r)
        as [[_ H']|(i & s & info & Hs & Hinfo & _ & H')];
        rewrite H' in H; simplify_eq; [done|].
      intros t Ht. unfold resolvedAt. case_match; simpl; [done|].
      apply lookup_insert_ne. intros ->.
      rewrite Ht, (Hb i s Hs) in Hinfo. done.
  - intros tok r Hb. done.
  - intros ro' r r1 r2 H1 H Hb.
    destruct H1 as [Hb1 Hdd1].
    { unfold noBlank, beginScope, Push. simpl.
      rewrite undeclared_app, undeclared_singleton. split; [done|].
      apply lookup_empty. }
    split; [by apply (endScope_noBlank ro' r1)|].
    apply endScope_cases in H as (st & s & _ & ->). simpl. apply Hdd1.
Qed.

(** X12: no token with the blank identifier as its lexeme ever gets a
    distance: the map a program's walk leaves, from the fresh resolver, has no
    entry for such a token. *)
Theorem blank_gets_no_distance ro program r' tok :
  resolveProgram ro program newResolver = Ok r' →
  token.Lexeme tok = token.BlankIdent →
  declDistancesByTok r' !! tok = None.
Proof.
  intros H Ht.
  assert (respects
    (λ r r' : resolver,
       noBlank (scopes r) →
       noBlank (scopes r') ∧
       ∀ tok, token.Lexeme tok = token.BlankIdent →
         declDistancesByTok r' !! tok = declDistancesByTok r !! tok)
    (resolveProgram ro program)) as Hres.
  { apply respects_forEach.
    - done.
    - intros r1 r2 r3 H12 H23 Hb. destruct (H12 Hb) as [Hb2 H2].
      destruct (H23 Hb2) as [Hb3 H3]. split; [done|].
      intros t Ht'. by rewrite H3, H2.
    - induction (Stmts program); constructor; [|done].
      apply (blank_unrecorded_walk ro). }
  destruct (Hres newResolver r' H) as [_ Hdd]; [apply undeclared_nil|].
  by rewrite Hdd.
Qed.

Lemma blank_gets_no_distance_witness :
  declDistancesByTok (mkResolver [] ∅ [blankDiag (tokenAt 1 6 "_")])
    !! tokenAt 1 6 "_" = None.
Proof.
  apply (blank_gets_no_distance codeOrder
           (mkProgram [PrintStmt (VariableExpr (tokenAt 1 6 "_"))])).
  - reflexivity.
  - reflexivity.
Defined.

(** ** The top level is not tracked *)

Lemma forEach_noop {A : Type} (f : A → resolver → result resolver) xs r :
  Forall (λ x, f x r = Ok r) xs → forEach f xs r = Ok r.
Proof. induction 1 as [|x xs Hx _ IH]; simpl; [done|]. by rewrite Hx. Qed.

Lemma flat_noop ro :
  (∀ s, flatStmt s = true → ∀ r, scopes r = [] → resolveStmt ro s r = Ok r) ∧
  (∀ e, flatExpr e = true → ∀ r, scopes r = [] → resolveExpr ro e r = Ok r).
Proof.
  apply Stmt_Expr_ind; simpl; try done.
  - intros n i Hi Hflat r Hr. walk.
    destruct Hi as [e He|]; simpl in Hflat.
    + rewrite He by done. walk. rewrite declareIdent_global by done. walk.
      apply defineIdent_undeclared. rewrite Hr. apply undeclared_nil.
    + by apply declareIdent_global.
  - intros c Hc t Ht e He [[Hfc Hft]%andb_prop Hfe]%andb_prop r Hr. walk.
    rewrite Hc by done. walk. rewrite Ht by done. walk.
    destruct He as [e He|]; simpl in *; [by apply He|done].
  - intros c Hc b Hb [Hfc Hfb]%andb_prop r Hr. walk.
    rewrite Hc by done. walk. by apply Hb.
  - intros v Hv Hflat r Hr. walk.
    destruct Hv as [e He|]; simpl in *; [by apply He|done].
  - intros n Hn%bool_decide_eq_true r Hr.
    rewrite resolveVariableExpr_read by done.
    apply resolveIdent_undeclared. rewrite Hr. apply undeclared_nil.
  - intros c Hc args Hargs [Hfc Hfa]%andb_prop r Hr. walk.
    rewrite Hc by done. walk. apply forEach_noop.
    induction Hargs as [|a Ha args _ IH]; [constructor|].
    simpl in Hfa. apply andb_prop in Hfa as [Hfa1 Hfa2].
    constructor; [by apply Ha|by apply IH].
  - intros l Hl r' Hr' [Hfl Hfr]%andb_prop r Hr. walk.
    rewrite Hl by done. walk. by apply Hr'.
  - intros c Hc t Ht e He [[Hfc Hft]%andb_prop Hfe]%andb_prop r Hr. walk.
    rewrite Hc by done. walk. rewrite Ht by done. walk. by apply He.
  - intros l e He Hflat r Hr. walk. rewrite He by done. walk.
    rewrite resolveIdent_undeclared by (rewrite Hr; apply undeclared_nil).
    walk. apply defineIdent_undeclared. rewrite Hr. apply undeclared_nil.
Qed.

(** X13: while the stack is empty, as it is at the top level, nothing is
    tracked: [declareIdent], [defineIdent] and [resolveIdent] return the state
    as it is, and so does the walk of every statement that opens no scope (no
    block, function or [for]) and reads no blank identifier; a program of such
    statements resolves with the empty map and no error, whatever it
    declares, redeclares, reads or leaves unused. *)
Theorem top_level_untracked ro r :
  scopes r = [] →
  (∀ tok op,
     declareIdent tok r = Ok r ∧ defineIdent tok r = Ok r ∧
     resolveIdent tok op r = Ok r) ∧
  (∀ s, flatStmt s = true → resolveStmt ro s r = Ok r) ∧
  (∀ program, forallb flatStmt (Stmts program) = true →
     resolve ro program = Ok (Some ∅, None)).
Proof.
  intros Hr. split_and!.
  - intros tok op. rewrite declareIdent_global by done.
    rewrite defineIdent_undeclared, resolveIdent_undeclared
      by (rewrite Hr; apply undeclared_nil).
    done.
  - intros s Hs. by apply (proj1 (flat_noop ro)).
  - intros program Hflat. unfold resolve, Resolve, resolveProgram.
    rewrite forEach_noop; [done|].
    apply Forall_forall. intros s Hs%list_elem_of_In.
    apply (proj1 (flat_noop ro)); [|done].
    by apply (proj1 (forallb_forall _ _) Hflat).
Qed.

Lemma top_level_untracked_witness :
  resolve codeOrder
    (mkProgram [VarDecl (tokenAt 1 4 "x") None;
                VarDecl (tokenAt 2 4 "x") (Some (VariableExpr (tokenAt 2 8 "y")));
                PrintStmt (VariableExpr (tokenAt 3 6 "z"))]) =
    Ok (Some ∅, None).
Proof.
  apply (top_level_untracked codeOrder newResolver).
  - reflexivity.
  - reflexivity.
Defined.

(** ** What a recorded distance means *)

(** X14: a distance means what the evaluator needs: when [resolveIdent]
    records the distance [d] for a token that had none, [d] is below the depth
    of the stack, the scope [d] levels up from the innermost declares the
    token's lexeme, no scope nearer to the innermost does, and the binding is
    defined unless the reference is a write. *)
Theorem recorded_distance_sound tok op r r' d :
  resolveIdent tok op r = Ok r' →
  declDistancesByTok r !! tok = None →
  declDistancesByTok r' !! tok = Some d →
  d < length (scopes r) ∧
  ∃ (s : scope) info,
    scopes r !! (length (scopes r) - 1 - d) = Some s ∧
    s !! token.Lexeme tok = Some info ∧
    (op = write ∨ Defined info = true) ∧
    ∀ k (s' : scope), length (scopes r) - 1 - d < k →
      scopes r !! k = Some s' → s' !! token.Lexeme tok = None.
Proof.
  intros H Hnone Hd.
  destruct (resolveIdent_cases tok op r)
    as [[_ H']|(i & s & info & Hs & Hinfo & Hin & H')];
    rewrite H' in H; simplify_eq; try congruence.
  pose proof (lookup_lt_Some _ _ _ Hs) as Hlt.
  unfold resolvedAt in Hd.
  destruct (negb (Defined info) && bool_decide (op = read)) eqn:E; simpl in Hd;
    [congruence|].
  rewrite lookup_insert_eq in Hd. simplify_eq.
  replace (length (scopes r) - 1 - (length (scopes r) - 1 - i)) with i by lia.
  split; [lia|]. exists s, info. split_and!; [done..| |].
  - destruct op; [|by left]. right.
    rewrite bool_decide_eq_true_2, andb_true_r in E by done.
    by destruct (Defined info).
  - apply innermost_scope in Hin as (s1 & _ & _ & Hk). apply Hk.
Qed.

Lemma recorded_distance_sound_witness :
  0 < length (scopes inBlockWithX) ∧
  ∃ (s : scope) info,
    scopes inBlockWithX !! (length (scopes inBlockWithX) - 1 - 0) = Some s ∧
    s !! token.Lexeme (tokenAt 1 15 "x") = Some info ∧
    (read = write ∨ Defined info = true) ∧
    ∀ k (s' : scope), length (scopes inBlockWithX) - 1 - 0 < k →
      scopes inBlockWithX !! k = Some s' →
      s' !! token.Lexeme (tokenAt 1 15 "x") = None.
Proof.
  apply (recorded_distance_sound (tokenAt 1 15 "x") read inBlockWithX
           (mkResolver [{[ "x" := mkIdentInfo true true (tokenAt 1 6 "x") ]}]
              {[ tokenAt 1 15 "x" := 0 ]} [])).
  - reflexivity.
  - reflexivity.
  - reflexivity.
Defined.

(** X15: [resolveIdent] never panics and never changes the depth of the
    stack; where no scope declares the lexeme it changes nothing at all; a
    write never leads to a diagnostic; a read leads to at most one, the "not
    defined" diagnostic at its token, and then records no distance. *)
Theorem resolveIdent_effects tok op r :
  ∃ r', resolveIdent tok op r = Ok r' ∧
    length (scopes r') = length (scopes r) ∧
    ((∀ k (s : scope), scopes r !! k = Some s →
        s !! token.Lexeme tok = None) → r' = r) ∧
    (op = write → errs r' = errs r) ∧
    (errs r' = errs r ∨
     op = read ∧ errs r' = errs r ++ [undefinedDiag tok] ∧
     declDistancesByTok r' = declDistancesByTok r).
Proof.
  destruct (resolveIdent_cases tok op r)
    as [[_ H']|(i & s & info & Hs & Hinfo & Hin & H')]; rewrite H'.
  - exists r. by split_and!; [..|left].
  - eexists. split; [done|]. unfold resolvedAt.
    assert ((∀ k (s0 : scope), scopes r !! k = Some s0 →
               s0 !! token.Lexeme tok = None) → False) as Hno.
    { intros Hu. rewrite (Hu i s Hs) in Hinfo. done. }
    destruct op, (Defined info); simpl;
      (split_and!; [apply length_insert|by intros ?%Hno|done|]);
      first [by left | by right].
Qed.

(** ** A write defines *)

(** X16: an assignment makes a declared variable readable: where a scope
    declares the name, defined or not, the assignment of a literal to it
    followed by a read of it appends no diagnostic, records for both tokens
    the distance to that scope, and leaves the binding defined and used. *)
Theorem assignment_defines ro tok tok' r i (s : scope) info :
  token.Lexeme tok' = token.Lexeme tok →
  token.Lexeme tok ≠ token.BlankIdent →
  scopes r !! i = Some s →
  s !! token.Lexeme tok = Some info →
  (∀ k (s' : scope), i < k → scopes r !! k = Some s' →
     s' !! token.Lexeme tok = None) →
  (r1 <- resolveExpr ro (AssignmentExpr tok LiteralExpr) r;;
   resolveExpr ro (VariableExpr tok') r1) =
    Ok (mkResolver
          (<[i := <[token.Lexeme tok := mkIdentInfo true true (Token info)]> s]>
             (scopes r))
          (<[tok' := length (scopes r) - 1 - i]>
             (<[tok := length (scopes r) - 1 - i]> (declDistancesByTok r)))
          (errs r)).
Proof.
  intros He Hb Hs Hinfo Hk.
  pose proof (lookup_lt_Some _ _ _ Hs) as Hlt.
  pose proof (innermost_intro _ _ _ s info Hs Hinfo Hk) as Hin.
  walk.
  rewrite (resolveIdent_innermost tok write r i s info) by done.
  unfold resolvedAt. rewrite andb_false_r. walk.
  set (s1 := <[token.Lexeme tok := used info]> s).
  rewrite (defineIdent_innermost tok _ i s1 (used info)).
  2:{ simpl. by rewrite list_lookup_insert_eq. }
  2:{ simpl. by apply (innermost_update _ _ _ s info). }
  walk. rewrite resolveVariableExpr_read by congruence.
  set (s2 := <[token.Lexeme tok := defined (used info)]> s1).
  rewrite (resolveIdent_innermost tok' read _ i s2 (defined (used info))).
  2:{ simpl. rewrite list_lookup_insert_eq; [done|by rewrite length_insert]. }
  2:{ simpl. unfold s2, s1.
      rewrite He, list_insert_insert_eq, insert_insert_eq.
      by apply (innermost_update _ _ _ s info). }
  unfold resolvedAt, s2, s1. simpl.
  rewrite He, !list_insert_insert_eq, !insert_insert_eq, !length_insert.
  done.
Qed.

Lemma assignment_defines_witness :
  (r1 <- resolveExpr codeOrder
           (AssignmentExpr (tokenAt 2 0 "x") LiteralExpr)
           (mkResolver [{[ "x" := mkIdentInfo false false (tokenAt 1 6 "x") ]}]
              ∅ []);;
   resolveExpr codeOrder (VariableExpr (tokenAt 3 6 "x")) r1) =
    Ok (mkResolver [{[ "x" := mkIdentInfo true true (tokenAt 1 6 "x") ]}]
          {[ tokenAt 2 0 "x" := 0; tokenAt 3 6 "x" := 0 ]} []).
Proof.
  rewrite (assignment_defines codeOrder (tokenAt 2 0 "x") (tokenAt 3 6 "x")
             (mkResolver
                [{[ "x" := mkIdentInfo false false (tokenAt 1 6 "x") ]}] ∅ [])
             0 {[ "x" := mkIdentInfo false false (tokenAt 1 6 "x") ]}
             (mkIdentInfo false false (tokenAt 1 6 "x"))).
  - vm_compute. reflexivity.
  - reflexivity.
  - discriminate.
  - reflexivity.
  - reflexivity.
  - intros [|k] s' Hlt H; [lia|done].
Defined.

(** ** Shadowing *)

(** X17: the innermost declaration shadows: from any state, whatever the
    scopes on the stack declare, the block [{ var x = 0; print x; }] appends
    no diagnostic, records distance 0 for its read, and leaves every scope of
    the stack as it found it, so no outer binding of [x] is marked used or
    reported as redeclared. *)
Theorem inner_declaration_shadows ro x x' r :
  token.Lexeme x' = token.Lexeme x →
  token.Lexeme x ≠ token.BlankIdent →
  resolveStmt ro
    (BlockStmt [VarDecl x (Some LiteralExpr); PrintStmt (VariableExpr x')]) r =
    Ok (mkResolver (scopes r) (<[x' := 0]> (declDistancesByTok r)) (errs r)).
Proof.
  intros He Hb. walk.
  rewrite (declareIdent_fresh x _ (scopes r) ∅) by (done || apply lookup_empty).
  walk.
  rewrite (defineIdent_at x _ (scopes r)
             {[ token.Lexeme x := mkIdentInfo false false x ]} []
             (mkIdentInfo false false x));
    [|done|by rewrite lookup_singleton_eq|apply undeclared_nil].
  walk. rewrite resolveVariableExpr_read by congruence.
  rewrite (resolveIdent_at x' read _ (scopes r)
             (<[token.Lexeme x := defined (mkIdentInfo false false x)]>
                {[ token.Lexeme x := mkIdentInfo false false x ]}) []
             (defined (mkIdentInfo false false x)));
    [|done|by rewrite He, lookup_insert_eq|apply undeclared_nil].
  walk. cbn [negb andb Defined defined].
  erewrite (endScope_none ro _ (scopes r)); [done|done|].
  rewrite He, insert_insert_eq. by rewrite unusedOf_insert_singleton.
Qed.

Lemma inner_declaration_shadows_witness :
  resolveStmt codeOrder
    (BlockStmt [VarDecl (tokenAt 2 6 "x") (Some LiteralExpr);
                PrintStmt (VariableExpr (tokenAt 2 19 "x"))]) inBlockWithX =
    Ok (mkResolver (scopes inBlockWithX) {[ tokenAt 2 19 "x" := 0 ]} []).
Proof.
  apply (inner_declaration_shadows codeOrder (tokenAt 2 6 "x")
           (tokenAt 2 19 "x") inBlockWithX).
  - reflexivity.
  - discriminate.
Defined.

(** ** Parameters *)

Lemma unusedOf_insert_fresh (m : scope) k v :
  m !! k = None →
  unusedOf (<[k := v]> m) ≡ₚ (if Used v then [] else [Token v]) ++ unusedOf m.
Proof.
  intros H. unfold unusedOf. rewrite map_to_list_insert by done.
  rewrite fmap_cons, filter_cons. simpl. by destruct (Used v).
Qed.

Lemma declare_define_params params :
  NoDup (token.Lexeme <$> params) →
  Forall (λ p, token.Lexeme p ≠ token.BlankIdent) params →
  ∀ st (acc : scope) dd e,
    Forall (λ p, acc !! token.Lexeme p = None) params →
    ∃ s : scope,
      forEach (λ param r', r'' <- declareIdent param r';; defineIdent param r'')
        params (mkResolver (st ++ [acc]) dd e)
      = Ok (mkResolver (st ++ [s]) dd e) ∧
      unusedOf s ≡ₚ unusedOf acc ++ params.
Proof.
  induction params as [|p ps IH]; intros Hnd Hnb st acc dd e Hacc.
  - exists acc. by rewrite app_nil_r.
  - rewrite fmap_cons in Hnd. apply NoDup_cons in Hnd as [Hp Hnd].
    apply Forall_cons in Hnb as [Hpb Hnb].
    apply Forall_cons in Hacc as [Hpa Hacc].
    cbn [forEach].
    rewrite (declareIdent_fresh p _ st acc) by done. walk.
    rewrite (defineIdent_at p _ st
               (<[token.Lexeme p := mkIdentInfo false false p]> acc) []
               (mkIdentInfo false false p));
      [|done|by rewrite lookup_insert_eq|apply undeclared_nil].
    walk. cbn [setScopes scopes declDistancesByTok errs].
    rewrite insert_insert_eq.
    destruct (IH Hnd Hnb st
                (<[token.Lexeme p := defined (mkIdentInfo false false p)]> acc)
                dd e) as (s & -> & Hs).
    { apply Forall_forall. intros q Hq.
      rewrite lookup_insert_ne.
      - by apply (proj1 (Forall_forall _ _) Hacc).
      - intros Heq. apply Hp. rewrite Heq. apply list_elem_of_fmap. eauto. }
    exists s. split; [done|].
    rewrite Hs, unusedOf_insert_fresh by done. simpl.
    by rewrite Permutation_middle.
Qed.

(** X18: a function literal with an empty body, whose parameters have
    different lexemes, none the blank identifier, declares and defines every
    parameter in a scope of its own: it appends exactly one "never used"
    diagnostic for each parameter, in some order, and leaves the stack and the
    distances as they were. *)
Theorem unused_parameters ro params r :
  NoDup (token.Lexeme <$> params) →
  Forall (λ p, token.Lexeme p ≠ token.BlankIdent) params →
  ∃ ds, resolveExpr ro (FunExpr params []) r =
          Ok (mkResolver (scopes r) (declDistancesByTok r) (errs r ++ ds)) ∧
    ds ≡ₚ unusedDiag <$> params.
Proof.
  intros Hnd Hnb. walk.
  change (beginScope r)
    with (mkResolver (scopes r ++ [∅]) (declDistancesByTok r) (errs r)).
  destruct (declare_define_params params Hnd Hnb (scopes r) ∅
              (declDistancesByTok r) (errs r)) as (s & -> & Hs).
  { apply Forall_forall. intros p _. apply lookup_empty. }
  walk. rewrite (endScope_Push ro _ (scopes r) s) by done.
  eexists. split; [done|].
  by rewrite UnusedIdents_perm, Hs, unusedOf_empty.
Qed.

Lemma unused_parameters_witness :
  ∃ ds, resolveExpr codeOrder
          (FunExpr [tokenAt 1 5 "a"; tokenAt 1 8 "b"] []) newResolver =
          Ok (mkResolver [] ∅ ([] ++ ds)) ∧
    ds ≡ₚ unusedDiag <$> [tokenAt 1 5 "a"; tokenAt 1 8 "b"].
Proof.
  apply (unused_parameters codeOrder [tokenAt 1 5 "a"; tokenAt 1 8 "b"]
           newResolver).
  - apply (bool_decide_unpack _). reflexivity.
  - repeat constructor; discriminate.
Defined.

(** ** The scope of a for statement *)

(** X19: a [for] statement opens one scope for its initialiser, condition and
    update, and its body block a scope of its own inside it: from any state,
    in [for (var i = 0; i; i = 0) { print i; }] the reads of [i] in the
    condition and the update's write get distance 0, the read in the body
    gets distance 1, no diagnostic is appended and the stack is left as it
    was. *)
Theorem for_statement_scope ro i i1 i2 i3 r :
  token.Lexeme i1 = token.Lexeme i →
  token.Lexeme i2 = token.Lexeme i →
  token.Lexeme i3 = token.Lexeme i →
  token.Lexeme i ≠ token.BlankIdent →
  resolveStmt ro
    (ForStmt (Some (VarDecl i (Some LiteralExpr)))
       (Some (VariableExpr i1))
       (Some (AssignmentExpr i2 LiteralExpr))
       (BlockStmt [PrintStmt (VariableExpr i3)])) r =
    Ok (mkResolver (scopes r)
          (<[i3 := 1]> (<[i2 := 0]> (<[i1 := 0]> (declDistancesByTok r))))
          (errs r)).
Proof.
  intros He1 He2 He3 Hb. walk.
  rewrite (declareIdent_fresh i _ (scopes r) ∅) by (done || apply lookup_empty).
  walk.
  erewrite (defineIdent_at i _ (scopes r) _ []);
    [|reflexivity|apply lookup_insert_eq|apply undeclared_nil].
  walk. rewrite resolveVariableExpr_read by congruence.
  erewrite (resolveIdent_at i1 read _ (scopes r) _ []);
    [|reflexivity|rewrite He1; apply lookup_insert_eq|apply undeclared_nil].
  cbn [negb andb Defined defined]. walk.
  erewrite (resolveIdent_at i2 write _ (scopes r) _ []);
    [|reflexivity|rewrite He2, He1; apply lookup_insert_eq|apply undeclared_nil].
  rewrite andb_false_r. walk.
  erewrite (defineIdent_at i2 _ (scopes r) _ []);
    [|reflexivity|apply lookup_insert_eq|apply undeclared_nil].
  walk. rewrite resolveVariableExpr_read by congruence.
  erewrite (resolveIdent_at i3 read _ (scopes r) _ [∅]);
    [|cbn [scopes beginScope setScopes]; unfold Push; rewrite <- app_assoc;
      reflexivity
     |rewrite He3, He2; apply lookup_insert_eq
     |apply undeclared_singleton, lookup_empty].
  cbn [negb andb Defined defined used]. walk.
  erewrite (endScope_none ro _ (scopes r ++ [_]) ∅);
    [|by rewrite <- app_assoc|apply unusedOf_empty].
  walk.
  erewrite (endScope_none ro _ (scopes r)); [done|done|].
  rewrite He1, He2, He3, !insert_insert_eq.
  by rewrite insert_empty, unusedOf_singleton.
Qed.

Lemma for_statement_scope_witness :
  resolveStmt codeOrder
    (ForStmt (Some (VarDecl (tokenAt 1 9 "i") (Some LiteralExpr)))
       (Some (VariableExpr (tokenAt 1 16 "i")))
       (Some (AssignmentExpr (tokenAt 1 19 "i") LiteralExpr))
       (BlockStmt [PrintStmt (VariableExpr (tokenAt 1 34 "i"))])) newResolver =
    Ok (mkResolver []
          (<[tokenAt 1 34 "i" := 1]>
             (<[tokenAt 1 19 "i" := 0]> (<[tokenAt 1 16 "i" := 0]> ∅))) []).
Proof.
  apply (for_statement_scope codeOrder (tokenAt 1 9 "i") (tokenAt 1 16 "i")
           (tokenAt 1 19 "i") (tokenAt 1 34 "i") newResolver).
  - reflexivity.
  - reflexivity.
  - reflexivity.
  - discriminate.
Defined.

(** ** Reading before a definition *)

(** X20: a read of a declared, not yet defined variable is an error but still
    a use: from any state, the block [{ var x; print x; }] appends exactly
    one diagnostic, "not defined" at the read, and no "never used" one,
    records no distance, and leaves the stack as it was. *)
Theorem read_before_definition ro x x' r :
  token.Lexeme x' = token.Lexeme x →
  token.Lexeme x ≠ token.BlankIdent →
  resolveStmt ro (BlockStmt [VarDecl x None; PrintStmt (VariableExpr x')]) r =
    Ok (mkResolver (scopes r) (declDistancesByTok r)
          (errs r ++ [undefinedDiag x'])).
Proof.
  intros He Hb. walk.
  rewrite (declareIdent_fresh x _ (scopes r) ∅) by (done || apply lookup_empty).
  walk. rewrite resolveVariableExpr_read by congruence.
  erewrite (resolveIdent_at x' read _ (scopes r) _ []);
    [|reflexivity|rewrite He; apply lookup_insert_eq|apply undeclared_nil].
  cbn [negb andb Defined bool_decide]. walk.
  erewrite (endScope_none ro _ (scopes r)); [done|done|].
  rewrite He, insert_insert_eq. by rewrite insert_empty, unusedOf_singleton.
Qed.

Lemma read_before_definition_witness :
  resolveStmt codeOrder
    (BlockStmt [VarDecl (tokenAt 1 6 "x") None;
                PrintStmt (VariableExpr (tokenAt 1 15 "x"))]) newResolver =
    Ok (mkResolver [] ∅ [undefinedDiag (tokenAt 1 15 "x")]).
Proof.
  apply (read_before_definition codeOrder (tokenAt 1 6 "x") (tokenAt 1 15 "x")
           newResolver).
  - reflexivity.
  - discriminate.
Defined.

(** ** Top-level functions *)




